(** * pair-images-aug: paired augmentation geometry and the XDoG sketch filter

    A shallow embedding of [dataset_aug.py], [lineart_util.py],
    [convert_source_to_sketch.py] and the parameter and batch functions of
    [test_app.py].

    Conventions.
    - A Python [int] is a [Z]; [//] is [Z.div] (both floor, the remainder takes
      the sign of the divisor) and raises [ZeroDivisionError] on a zero divisor.
    - A Python [float] is an exact rational [Q]; [int(x)] truncates toward zero.
    - A raised exception is the [Raise] branch of [result].
    - The process-wide [random] generator is an explicit state threaded
      through the monad [M].
    - Pillow, NumPy and OpenCV calls are modelled by what they return.  The
      numerical kernels that interpolate in floating point (rotation by an
      arbitrary angle, bicubic resampling, [cv2.resize], the Gaussian weights)
      are section variables. *)

From Stdlib Require Import ZArith QArith Qround Qminmax List Bool String Lia Lqa.
Import ListNotations.
Local Open Scope Z_scope.

(** ** Exceptions and results *)

Inductive exn : Type :=
| ValueError (msg : string)
| ZeroDivisionError
| IndexError
| cv2_error.

Inductive result (A : Type) : Type :=
| Ok (a : A)
| Raise (e : exn).
Arguments Ok {A} a.
Arguments Raise {A} e.

(** ** Numbers *)

(** [int(x)] on a float: truncation toward zero. *)
Definition int (x : Q) : Z := Z.quot (Qnum x) (Zpos (Qden x)).

(** [a // b] on ints. *)
Definition floordiv (a b : Z) : result Z :=
  if b =? 0 then Raise ZeroDivisionError else Ok (a / b).

(** [a / b] on floats. *)
Definition truediv (a b : Q) : result Q :=
  if Qeq_bool b 0 then Raise ZeroDivisionError else Ok (a / b)%Q.

(** [x > y] on floats. *)
Definition Qgtb (x y : Q) : bool := negb (Qle_bool x y).

(** [range(n)]. *)
Definition range (n : Z) : list Z := map Z.of_nat (seq 0 (Z.to_nat n)).

(** ** Images (PIL.Image, mode RGB) *)

Definition color : Type := (Z * Z * Z)%type.

Definition color_eqb (a b : color) : bool :=
  let '(r1, g1, b1) := a in
  let '(r2, g2, b2) := b in
  (r1 =? r2) && (g1 =? g2) && (b1 =? b2).

Definition white : color := (255, 255, 255).
Definition black : color := (0, 0, 0).

(** An image is its size and its pixel grid; [pixels img x y] is read only
    for [0 <= x < width] and [0 <= y < height]. *)
Record Image : Type := mkImage {
  width : Z;
  height : Z;
  pixels : Z -> Z -> color
}.

Definition size (img : Image) : Z * Z := (width img, height img).

Definition inside (img : Image) (x y : Z) : bool :=
  (0 <=? x) && (x <? width img) && (0 <=? y) && (y <? height img).

(** Two images with the same size and the same pixels. *)
Definition same_image (a b : Image) : Prop :=
  width a = width b /\ height a = height b /\
  forall x y, 0 <= x < width a -> 0 <= y < height a -> pixels a x y = pixels b x y.

(** [list(img.getdata())]: the pixels in row-major order. *)
Definition getdata (img : Image) : list color :=
  flat_map (fun y => map (fun x => pixels img x y) (range (width img)))
           (range (height img)).

(** [Image.new("RGB", (w, h), fill)]. *)
Definition Image_new (sz : Z * Z) (fill : color) : Image :=
  mkImage (fst sz) (snd sz) (fun _ _ => fill).

(** [img.crop((l, t, r, b))]: the part of the box outside the image is black. *)
Definition crop (img : Image) (box : Z * Z * Z * Z) : Image :=
  let '(l, t, r, b) := box in
  mkImage (Z.max 0 (r - l)) (Z.max 0 (b - t))
    (fun x y => if inside img (x + l) (y + t) then pixels img (x + l) (y + t) else black).

(** [canvas.paste(img, (x0, y0))], as the canvas after the call. *)
Definition paste (canvas img : Image) (at_ : Z * Z) : Image :=
  let '(x0, y0) := at_ in
  mkImage (width canvas) (height canvas)
    (fun x y => if inside img (x - x0) (y - y0) then pixels img (x - x0) (y - y0)
                else pixels canvas x y).

(** [ImageOps.mirror(img)]. *)
Definition mirror (img : Image) : Image :=
  mkImage (width img) (height img) (fun x y => pixels img (width img - 1 - x) y).

(** [img.transpose(ROTATE_90 | ROTATE_180 | ROTATE_270)]. *)
Definition transpose_90 (img : Image) : Image :=
  mkImage (height img) (width img) (fun x y => pixels img (width img - 1 - y) x).
Definition transpose_180 (img : Image) : Image :=
  mkImage (width img) (height img)
    (fun x y => pixels img (width img - 1 - x) (height img - 1 - y)).
Definition transpose_270 (img : Image) : Image :=
  mkImage (height img) (width img) (fun x y => pixels img y (height img - 1 - x)).

(** [angle % 360.0]. *)
Definition mod360 (angle : Q) : Q := (angle - 360 * inject_Z (Qfloor (angle / 360)))%Q.

(** ** The random generator

    The generator state is a tape of entropy words, an exhausted tape reads
    zeros.  [random()] is a 53-bit fraction in [0, 1); [_randbelow(n)] is an
    int in [0, n). *)

Definition Rng : Type := list N.

Definition M (A : Type) : Type := Rng -> result (A * Rng).

Definition ret {A} (a : A) : M A := fun g => Ok (a, g).

Definition bind {A B} (m : M A) (k : A -> M B) : M B :=
  fun g => match m g with
           | Ok (a, g') => k a g'
           | Raise e => Raise e
           end.

Definition raise {A} (e : exn) : M A := fun _ => Raise e.

Definition lift {A} (r : result A) : M A :=
  fun g => match r with Ok a => Ok (a, g) | Raise e => Raise e end.

Declare Scope monad_scope.
Delimit Scope monad_scope with monad.
Notation "x <- m ;; k" := (bind m (fun x => k))
  (at level 100, m at next level, right associativity) : monad_scope.
Notation "' p <- m ;; k" := (bind m (fun x => match x with p => k end))
  (at level 100, p pattern, m at next level, right associativity) : monad_scope.
Local Open Scope monad_scope.

Definition next_word : M N :=
  fun g => match g with
           | [] => Ok (0%N, [])
           | w :: g' => Ok (w, g')
           end.

Definition random : M Q :=
  w <- next_word ;;
  ret (Z.of_N (w mod 2 ^ 53) # 2 ^ 53).

Definition _randbelow (n : Z) : M Z :=
  w <- next_word ;;
  ret (Z.of_N w mod n).

(** [random.uniform(a, b)]. *)
Definition uniform (a b : Q) : M Q :=
  u <- random ;;
  ret (a + (b - a) * u)%Q.

(** [random.randint(a, b)]. *)
Definition randint (a b : Z) : M Z :=
  let span := b + 1 - a in
  if 0 <? span then
    r <- _randbelow span ;;
    ret (a + r)
  else raise (ValueError "empty range for randrange()").

(** [random.choice(seq)]. *)
Definition choice {A} (seq_ : list A) : M A :=
  match seq_ with
  | [] => raise IndexError
  | d :: _ =>
      i <- _randbelow (Z.of_nat (List.length seq_)) ;;
      ret (nth (Z.to_nat i) seq_ d)
  end.

(** ** Pillow calls that interpolate *)

Section Augmenter.

(** [Image.rotate(angle, expand=True, fillcolor=c)] away from the quarter
    turns: the affine resampling onto the expanded bounding box. *)
Variable rotate_affine : Image -> Q -> color -> Image.

(** The pixel grid of [Image.resize((w, h))] (bicubic) when a resampling
    takes place. *)
Variable resample : Image -> Z -> Z -> Z -> Z -> color.

(** [img.rotate(angle, expand=True, fillcolor=c)]: the quarter turns are
    exact copies or transpositions. *)
Definition Image_rotate (img : Image) (angle : Q) (fillcolor : color) : Image :=
  let a := mod360 angle in
  if Qeq_bool a 0 then img
  else if Qeq_bool a 180 then transpose_180 img
  else if Qeq_bool a 90 then transpose_90 img
  else if Qeq_bool a 270 then transpose_270 img
  else rotate_affine img a fillcolor.

(** [img.resize((w, h))]: a copy when the size is unchanged. *)
Definition Image_resize (img : Image) (sz : Z * Z) : result Image :=
  let '(w, h) := sz in
  if (w =? width img) && (h =? height img) then Ok img
  else if (w <? 1) || (h <? 1) then Raise (ValueError "height and width must be > 0")
  else Ok (mkImage w h (resample img w h)).

(** ** dataset_aug.py *)

(** [ImageStat.Stat(image).mean]: per band, the sum over the pixel count. *)
Definition band_sums (l : list color) : Z * Z * Z :=
  fold_left (fun '(sr, sg, sb) '(r, g, b) => (sr + r, sg + g, sb + b)) l (0, 0, 0).

Definition ImageStat_mean (image : Image) : result (Q * Q * Q) :=
  let data := getdata image in
  let count := Z.of_nat (List.length data) in
  let '(sr, sg, sb) := band_sums data in
  if count =? 0 then Raise ZeroDivisionError
  else Ok (inject_Z sr / inject_Z count, inject_Z sg / inject_Z count,
           inject_Z sb / inject_Z count)%Q.

Definition get_average_color (image : Image) : result color :=
  match ImageStat_mean image with
  | Ok (mr, mg, mb) => Ok (int mr, int mg, int mb)
  | Raise e => Raise e
  end.

(** [collections.Counter(colors)]: the counts, keys in order of first
    occurrence. *)
Fixpoint Counter_incr (c : color) (cnt : list (color * Z)) : list (color * Z) :=
  match cnt with
  | [] => [(c, 1)]
  | (k, n) :: rest =>
      if color_eqb k c then (k, n + 1) :: rest else (k, n) :: Counter_incr c rest
  end.

Definition Counter (colors : list color) : list (color * Z) :=
  fold_left (fun cnt c => Counter_incr c cnt) colors [].

(** [counter.most_common(1)]: [max] over the items by count, the first of
    the maximal items. *)
Definition most_common_1 (cnt : list (color * Z)) : list (color * Z) :=
  match cnt with
  | [] => []
  | x :: rest => [fold_left (fun best y => if snd best <? snd y then y else best) rest x]
  end.

Definition edge_colors (img : Image) (edge_width : Z) : list color :=
  let left := crop img (0, 0, edge_width, height img) in
  let right := crop img (width img - edge_width, 0, width img, height img) in
  let top := crop img (0, 0, width img, edge_width) in
  let bottom := crop img (0, height img - edge_width, width img, height img) in
  getdata left ++ getdata right ++ getdata top ++ getdata bottom.

Definition get_edge_mode_color (img : Image) (edge_width : Z) : result color :=
  let colors := edge_colors img edge_width in
  match most_common_1 (Counter colors) with
  | [] => Raise IndexError
  | (mode_color, _) :: _ => Ok mode_color
  end.

Definition rotate_image (image : Image) (angle : Q) (fill_color : color) : Image :=
  Image_rotate image angle fill_color.

Definition crop_square (cropped_rect_image : Image) (left top crop_size : Z) : Image :=
  crop cropped_rect_image (left, top, left + crop_size, top + crop_size).

Definition apply_random_flip (image : Image) (is_horizontal : bool) : Image :=
  if is_horizontal then mirror image else image.

(** The keyword arguments of [process_image_pair]. *)
Record Config : Type := mkConfig {
  output_size : Z * Z;
  is_flip : bool;
  rotation_range : Q;
  min_scale : Q;
  max_scale : Q;
  source_is_avg_color_fill : bool;
  source_is_edge_mode_fill : bool;
  target_is_avg_color_fill : bool;
  target_is_edge_mode_fill : bool;
  expand_to_long_side : bool
}.

(** The local variables of [process_image_pair] when it reaches its last
    two statements.  [expanded_source] and [expanded_target] are
    [base_source] and [base_target] after the long-side block,
    [rotated_source] and [rotated_target] after the rotation block;
    [angle] and [is_horizontal] are [None] when the draw is skipped. *)
Record Locals : Type := mkLocals {
  source_fill_color : color;
  target_fill_color : color;
  expanded_source : Image;
  expanded_target : Image;
  angle : option Q;
  rotated_source : Image;
  rotated_target : Image;
  is_horizontal : option bool;
  base_source : Image;
  base_target : Image;
  scale : Q;
  canvas_scale : Q;
  scaled_source : Image;
  scaled_target : Image;
  crop_source_size : Z;
  crop_target_size : Z;
  left_source : Z;
  top_source : Z;
  left_target : Z;
  top_target : Z
}.

(** The long-side block for one image. *)
Definition long_side_canvas (base : Image) (fill : color) : Image :=
  let long_side := Z.max (width base) (height base) in
  let canvas := Image_new (long_side, long_side) fill in
  let paste_x := (long_side - width base) / 2 in
  let paste_y := (long_side - height base) / 2 in
  paste canvas base (paste_x, paste_y).

(** The canvas-growth block for one image. *)
Definition grown_canvas (base : Image) (canvas_scale : Q) (fill : color) : Image :=
  let scaled := Image_new (int (inject_Z (width base) * canvas_scale),
                           int (inject_Z (height base) * canvas_scale)) fill in
  paste scaled base (int (inject_Z (width scaled - width base) / 2),
                     int (inject_Z (height scaled - height base) / 2)).

(** [process_image_pair], lines 69 to 151. *)
Definition process_image_pair_locals (source_image target_image : Image) (cfg : Config)
  : M Locals :=
  let '(orig_source_width, orig_source_height) := size source_image in
  let '(orig_target_width, orig_target_height) := size target_image in
  source_fill_color <- lift (
    if source_is_edge_mode_fill cfg then get_edge_mode_color source_image 10
    else if source_is_avg_color_fill cfg then get_average_color source_image
    else Ok (255, 255, 255)) ;;
  target_fill_color <- lift (
    if target_is_edge_mode_fill cfg then get_edge_mode_color target_image 10
    else if target_is_avg_color_fill cfg then get_average_color target_image
    else Ok (255, 255, 255)) ;;
  let base_source := source_image in
  let base_target := target_image in
  let '(base_source, base_target) :=
    if expand_to_long_side cfg then
      (long_side_canvas base_source source_fill_color,
       long_side_canvas base_target target_fill_color)
    else (base_source, base_target) in
  let expanded_source := base_source in
  let expanded_target := base_target in
  '(angle, base_source, base_target) <- (
    if Qgtb (rotation_range cfg) 0 then
      angle <- uniform (- rotation_range cfg) (rotation_range cfg) ;;
      let rotated_source := rotate_image source_image angle source_fill_color in
      let rotated_target := rotate_image target_image angle target_fill_color in
      ret (Some angle, rotated_source, rotated_target)
    else ret (None, base_source, base_target)) ;;
  let rotated_source := base_source in
  let rotated_target := base_target in
  '(is_horizontal, base_source, base_target) <- (
    if is_flip cfg then
      is_horizontal <- choice [true; false] ;;
      let flipped_source := apply_random_flip base_source is_horizontal in
      let flipped_target := apply_random_flip base_target is_horizontal in
      ret (Some is_horizontal, flipped_source, flipped_target)
    else ret (None, base_source, base_target)) ;;
  scale <- uniform (min_scale cfg) (max_scale cfg) ;;
  canvas_scale <- lift (truediv 1 scale) ;;
  let '(scaled_source, scaled_target) :=
    if Qgtb canvas_scale 1 then
      (grown_canvas base_source canvas_scale source_fill_color,
       grown_canvas base_target canvas_scale target_fill_color)
    else (base_source, base_target) in
  let '(base_source_width, base_source_height) := size base_source in
  let base_source_max_square_size := Z.min base_source_height base_source_width in
  let crop_source_size := int (inject_Z base_source_max_square_size * canvas_scale) in
  let '(base_target_width, base_target_height) := size base_target in
  let base_target_max_square_size := Z.min base_target_height base_target_width in
  let crop_target_size := int (inject_Z base_target_max_square_size * canvas_scale) in
  let '(scaled_source_width, scaled_source_height) := size scaled_source in
  left_source <- randint 0 (scaled_source_width - crop_source_size) ;;
  top_source <- randint 0 (scaled_source_height - crop_source_size) ;;
  left_target <- lift (floordiv (left_source * orig_target_width) orig_source_width) ;;
  top_target <- lift (floordiv (top_source * orig_target_height) orig_source_height) ;;
  ret (mkLocals source_fill_color target_fill_color expanded_source expanded_target
         angle rotated_source rotated_target is_horizontal
         base_source base_target scale canvas_scale
         scaled_source scaled_target crop_source_size crop_target_size
         left_source top_source left_target top_target).

(** [process_image_pair]. *)
Definition process_image_pair (source_image target_image : Image) (cfg : Config)
  : M (Image * Image) :=
  L <- process_image_pair_locals source_image target_image cfg ;;
  final_source <- lift (Image_resize
    (crop_square (scaled_source L) (left_source L) (top_source L) (crop_source_size L))
    (output_size cfg)) ;;
  final_target <- lift (Image_resize
    (crop_square (scaled_target L) (left_target L) (top_target L) (crop_target_size L))
    (output_size cfg)) ;;
  ret (final_source, final_target).

(** [process_images]: the loop over [range(num_copies)]. *)
Fixpoint process_images_loop (source_img target_img : Image) (cfg : Config) (n : nat)
    (aug_sources aug_targets : list Image) : M (list Image * list Image) :=
  match n with
  | O => ret (aug_sources, aug_targets)
  | S n' =>
      '(aug_source, aug_target) <- process_image_pair source_img target_img cfg ;;
      process_images_loop source_img target_img cfg n'
        (aug_sources ++ [aug_source]) (aug_targets ++ [aug_target])
  end.

Definition process_images (source_img target_img : Image) (num_copies : Z) (cfg : Config)
  : M (list Image * list Image) :=
  process_images_loop source_img target_img cfg (Z.to_nat num_copies) [] [].

(** The entropy words one call of [process_image_pair] reads: one for the
    angle when it is drawn, one for the flip when it is drawn, one for the
    scale and one for each crop offset. *)
Definition words_drawn (cfg : Config) : nat :=
  (if Qgtb (rotation_range cfg) 0 then 1 else 0) + (if is_flip cfg then 1 else 0) + 3.

(** What a successful run of lines 69 to 151 on the generator state [g]
    establishes about the locals [L] and the state [g'] it leaves. *)
Record draw_facts (src tgt : Image) (cfg : Config) (g : Rng) (L : Locals) (g' : Rng) : Prop := {
  df_source_fill :
    (if source_is_edge_mode_fill cfg then get_edge_mode_color src 10
     else if source_is_avg_color_fill cfg then get_average_color src
     else Ok (255, 255, 255)) = Ok (source_fill_color L);
  df_target_fill :
    (if target_is_edge_mode_fill cfg then get_edge_mode_color tgt 10
     else if target_is_avg_color_fill cfg then get_average_color tgt
     else Ok (255, 255, 255)) = Ok (target_fill_color L);
  df_expanded_source :
    expanded_source L = if expand_to_long_side cfg
                        then long_side_canvas src (source_fill_color L) else src;
  df_expanded_target :
    expanded_target L = if expand_to_long_side cfg
                        then long_side_canvas tgt (target_fill_color L) else tgt;
  df_rotation :
    if Qgtb (rotation_range cfg) 0 then
      exists a, uniform (- rotation_range cfg) (rotation_range cfg) g = Ok (a, skipn 1 g) /\
        angle L = Some a /\
        rotated_source L = rotate_image src a (source_fill_color L) /\
        rotated_target L = rotate_image tgt a (target_fill_color L)
    else angle L = None /\ rotated_source L = expanded_source L /\
         rotated_target L = expanded_target L;
  df_flip :
    if is_flip cfg then
      exists h, is_horizontal L = Some h /\
        base_source L = apply_random_flip (rotated_source L) h /\
        base_target L = apply_random_flip (rotated_target L) h
    else is_horizontal L = None /\ base_source L = rotated_source L /\
         base_target L = rotated_target L;
  df_scale :
    exists u, (0 <= u)%Q /\ (u < 1)%Q /\
      scale L = (min_scale cfg + (max_scale cfg - min_scale cfg) * u)%Q;
  df_scale_nonzero : ~ (scale L == 0)%Q;
  df_canvas_scale : canvas_scale L = (1 / scale L)%Q;
  df_scaled_source :
    scaled_source L = if Qgtb (canvas_scale L) 1
                      then grown_canvas (base_source L) (canvas_scale L) (source_fill_color L)
                      else base_source L;
  df_scaled_target :
    scaled_target L = if Qgtb (canvas_scale L) 1
                      then grown_canvas (base_target L) (canvas_scale L) (target_fill_color L)
                      else base_target L;
  df_crop_source_size :
    crop_source_size L =
      int (inject_Z (Z.min (height (base_source L)) (width (base_source L))) * canvas_scale L);
  df_crop_target_size :
    crop_target_size L =
      int (inject_Z (Z.min (height (base_target L)) (width (base_target L))) * canvas_scale L);
  df_left_source : 0 <= left_source L <= width (scaled_source L) - crop_source_size L;
  df_top_source : 0 <= top_source L <= height (scaled_source L) - crop_source_size L;
  df_orig_width : width src <> 0;
  df_orig_height : height src <> 0;
  df_left_target : left_target L = left_source L * width tgt / width src;
  df_top_target : top_target L = top_source L * height tgt / height src;
  df_rng : g' = skipn (words_drawn cfg) g
}.

End Augmenter.

(** ** Arrays (numpy.ndarray)

    An array of shape [(rows, cols)] whose entries are of type [A]: an RGB
    triple for an [H x W x 3] array, a number for an [H x W] array.
    [at_ a y x] is [a[y, x]]. *)

Record ndarray (A : Type) : Type := mkArray {
  rows : Z;
  cols : Z;
  at_ : Z -> Z -> A
}.
Arguments mkArray {A} rows cols at_.
Arguments rows {A} n.
Arguments cols {A} n.
Arguments at_ {A} n y x.

Definition fcolor : Type := (Q * Q * Q)%type.

(** [np.array(image)] and [Image.fromarray(arr)]. *)
Definition np_array (image : Image) : ndarray color :=
  mkArray (height image) (width image) (fun y x => pixels image x y).

Definition Image_fromarray (arr : ndarray color) : Image :=
  mkImage (cols arr) (rows arr) (fun x y => at_ arr y x).

(** [arr.astype(np.float32)]. *)
Definition astype_float32 (arr : ndarray color) : ndarray fcolor :=
  mkArray (rows arr) (cols arr)
    (fun y x => let '(r, g, b) := at_ arr y x in (inject_Z r, inject_Z g, inject_Z b)).

(** uint8 arithmetic wraps modulo 256. *)
Definition uint8 (v : Z) : Z := v mod 256.

(** [np.round(x)]: to the nearest integer, a tie to the even one. *)
Definition np_round (x : Q) : Q :=
  let f := Qfloor x in
  let r := (x - inject_Z f)%Q in
  if Qgtb (1 # 2) r then inject_Z f
  else if Qgtb r (1 # 2) then inject_Z (f + 1)
  else if Z.even f then inject_Z f else inject_Z (f + 1).

(** [x.clip(lo, hi)] on a float. *)
Definition clip (lo hi x : Q) : Q := Qmin (Qmax x lo) hi.

(** [cv2.borderInterpolate(p, len, BORDER_REFLECT_101)]. *)
Definition borderInterpolate (p len : Z) : Z :=
  if len <=? 1 then 0
  else
    let period := 2 * (len - 1) in
    let q := p mod period in
    if q <? len then q else period - q.

(** The sum of a list of floats. *)
Definition Qsum (l : list Q) : Q := fold_right Qplus 0%Q l.

(** One pass of a separable filter along a line of [len] samples: the
    weights [w] centred on sample [i]. *)
Definition filter_line (w : list Q) (f : Z -> Q) (len i : Z) : Q :=
  let radius := (Z.of_nat (List.length w) - 1) / 2 in
  Qsum (map (fun '(j, wj) => (wj * f (borderInterpolate (i + j - radius) len))%Q)
            (combine (range (Z.of_nat (List.length w))) w)).

Definition chan_r (c : fcolor) : Q := fst (fst c).
Definition chan_g (c : fcolor) : Q := snd (fst c).
Definition chan_b (c : fcolor) : Q := snd c.

Definition filter_rows (w : list Q) (a : ndarray fcolor) : ndarray fcolor :=
  mkArray (rows a) (cols a)
    (fun y x => (filter_line w (fun x' => chan_r (at_ a y x')) (cols a) x,
                 filter_line w (fun x' => chan_g (at_ a y x')) (cols a) x,
                 filter_line w (fun x' => chan_b (at_ a y x')) (cols a) x)).

Definition filter_cols (w : list Q) (a : ndarray fcolor) : ndarray fcolor :=
  mkArray (rows a) (cols a)
    (fun y x => (filter_line w (fun y' => chan_r (at_ a y' x)) (rows a) y,
                 filter_line w (fun y' => chan_g (at_ a y' x)) (rows a) y,
                 filter_line w (fun y' => chan_b (at_ a y' x)) (rows a) y)).

Inductive interpolation : Type := INTER_CUBIC | INTER_AREA.

Section Sketch.

(** The pixel grid of PIL's [Image.resize] when a resampling takes place. *)
Variable resample : Image -> Z -> Z -> Z -> Z -> color.

(** The grid of [cv2.resize(img, (w, h), interpolation=i)], read as
    [cv2_resize_grid img w h i y x]. *)
Variable cv2_resize_grid : ndarray color -> Z -> Z -> interpolation -> Z -> Z -> color.

(** [cv2.getGaussianKernel] for the kernel size that [GaussianBlur] derives
    from sigma when [ksize = (0, 0)]. *)
Variable gaussian_kernel : Q -> list Q.

Definition cv2_resize (img : ndarray color) (dsize : Z * Z) (i : interpolation)
  : result (ndarray color) :=
  let '(w, h) := dsize in
  if (w <? 1) || (h <? 1) then Raise cv2_error
  else Ok (mkArray h w (cv2_resize_grid img w h i)).

(** [cv2.GaussianBlur(a, (0, 0), sigma)]. *)
Definition GaussianBlur (a : ndarray fcolor) (sigma : Q) : ndarray fcolor :=
  filter_cols (gaussian_kernel sigma) (filter_rows (gaussian_kernel sigma) a).

(** ** lineart_util.py *)

Definition pad64 (x : Z) : Z :=
  int (inject_Z (Qceiling (inject_Z x / 64)) * 64 - inject_Z x).

(** Arrays here have three channels, the case in which [HWC3] returns its
    argument. *)
Definition HWC3 (x : ndarray color) : ndarray color := x.

(** [np.pad(img, [[0, H_pad], [0, W_pad], [0, 0]], mode='edge')]. *)
Definition np_pad_edge (img : ndarray color) (H_pad W_pad : Z) : ndarray color :=
  mkArray (rows img + H_pad) (cols img + W_pad)
    (fun y x => at_ img (Z.min y (rows img - 1)) (Z.min x (cols img - 1))).

(** [x[:H_target, :W_target]]. *)
Definition remove_pad {A} (H_target W_target : Z) (x : ndarray A) : ndarray A :=
  mkArray (Z.min H_target (rows x)) (Z.min W_target (cols x)) (at_ x).

(** [resize_image_with_pad]: the padded image and the sizes that
    [remove_pad] closes over. *)
Definition resize_image_with_pad (input_image : ndarray color) (resolution : Z)
  : result (ndarray color * (Z * Z)) :=
  let img := HWC3 input_image in
  let H_raw := rows img in
  let W_raw := cols img in
  match truediv (inject_Z resolution) (inject_Z (Z.min H_raw W_raw)) with
  | Raise e => Raise e
  | Ok k =>
      let interpolation := if Qgtb k 1 then INTER_CUBIC else INTER_AREA in
      let H_target := int (np_round (inject_Z H_raw * k)) in
      let W_target := int (np_round (inject_Z W_raw * k)) in
      match cv2_resize img (W_target, H_target) interpolation with
      | Raise e => Raise e
      | Ok img =>
          let H_pad := pad64 H_target in
          let W_pad := pad64 W_target in
          let img_padded := np_pad_edge img H_pad W_pad in
          Ok (img_padded, (H_target, W_target))
      end
  end.

(** [dog = (255 - np.min(g2 - g1, axis=2)).clip(0, 255).astype(np.uint8)]. *)
Definition dog_of (g1 g2 : ndarray fcolor) : ndarray Z :=
  mkArray (rows g2) (cols g2)
    (fun y x =>
       let '(r1, gg1, b1) := at_ g1 y x in
       let '(r2, gg2, b2) := at_ g2 y x in
       int (clip 0 255 (255 - Qmin (Qmin (r2 - r1) (gg2 - gg1)) (b2 - b1)))%Q).

(** The local [dog] of [scribble_xdog], with the sizes before padding. *)
Definition xdog_dog (img : ndarray color) (res : Z) : result (ndarray Z * (Z * Z)) :=
  match resize_image_with_pad img res with
  | Raise e => Raise e
  | Ok (img, sz) =>
      Ok (dog_of (GaussianBlur (astype_float32 img) (1 # 2))
                 (GaussianBlur (astype_float32 img) 5), sz)
  end.

(** One entry of [result] after [result[2 * (255 - dog) > thr_a] = 255]: the
    product is taken in uint8. *)
Definition xdog_threshold (thr_a dog : Z) : color :=
  if thr_a <? uint8 (2 * uint8 (255 - dog)) then (255, 255, 255) else (0, 0, 0).

(** [scribble_xdog], the image it returns. *)
Definition scribble_xdog (img : ndarray color) (res thr_a : Z) : result Image :=
  match resize_image_with_pad img res with
  | Raise e => Raise e
  | Ok (img, (H_target, W_target)) =>
      let g1 := GaussianBlur (astype_float32 img) (1 # 2) in
      let g2 := GaussianBlur (astype_float32 img) 5 in
      let dog := dog_of g1 g2 in
      let result := mkArray (rows img) (cols img)
                      (fun y x => xdog_threshold thr_a (at_ dog y x)) in
      Ok (Image_fromarray (remove_pad H_target W_target result))
  end.

(** ** convert_source_to_sketch.py *)

(** [cv2.cvtColor(arr, cv2.COLOR_RGB2BGR)]. *)
Definition cvtColor_RGB2BGR (arr : ndarray color) : ndarray color :=
  mkArray (rows arr) (cols arr) (fun y x => let '(r, g, b) := at_ arr y x in (b, g, r)).

(** [255 - arr] on a uint8 array. *)
Definition invert_uint8 (arr : ndarray color) : ndarray color :=
  mkArray (rows arr) (cols arr)
    (fun y x => let '(r, g, b) := at_ arr y x in
                (uint8 (255 - r), uint8 (255 - g), uint8 (255 - b))).

Definition convert_pil_to_sketch (image : Image) : result Image :=
  let '(input_width, input_height) := size image in
  let image := np_array image in
  match scribble_xdog image 2048 16 with
  | Raise e => Raise e
  | Ok processed_image =>
      match Image_resize resample processed_image (input_width, input_height) with
      | Raise e => Raise e
      | Ok processed_image =>
          let processed_image := cvtColor_RGB2BGR (np_array processed_image) in
          let processed_image := invert_uint8 processed_image in
          Ok (Image_fromarray processed_image)
      end
  end.

End Sketch.

(** ** lineart_util.py, [HWC3] on any channel count *)

(** An array as [HWC3] receives it: [raw_channels] is [None] for a 2-D array
    and [Some C] for an [H x W x C] array; [raw_uint8] is [x.dtype ==
    np.uint8]; [raw_at y x c] is [x[y, x, c]]. *)
Record raw_array : Type := mkRaw {
  raw_rows : Z;
  raw_cols : Z;
  raw_channels : option Z;
  raw_uint8 : bool;
  raw_at : Z -> Z -> Z -> Z
}.

(** The outcome of code guarded by [assert]. *)
Inductive asserted (A : Type) : Type :=
| Passed (a : A)
| AssertionError.
Arguments Passed {A} a.
Arguments AssertionError {A}.

(** [y = color * alpha + 255.0 * (1.0 - alpha)] for one channel, clipped and
    cast to uint8. *)
Definition alpha_over_white (v a : Z) : Z :=
  let alpha := (inject_Z a / 255)%Q in
  int (clip 0 255 (inject_Z v * alpha + 255 * (1 - alpha))).

(** [HWC3] on any channel count. *)
Definition HWC3_any (x : raw_array) : asserted (ndarray color) :=
  if negb (raw_uint8 x) then AssertionError
  else
    let C := match raw_channels x with None => 1 | Some c => c end in
    if negb ((C =? 1) || (C =? 3) || (C =? 4)) then AssertionError
    else if C =? 3 then
      Passed (mkArray (raw_rows x) (raw_cols x)
                (fun i j => (raw_at x i j 0, raw_at x i j 1, raw_at x i j 2)))
    else if C =? 1 then
      Passed (mkArray (raw_rows x) (raw_cols x)
                (fun i j => (raw_at x i j 0, raw_at x i j 0, raw_at x i j 0)))
    else
      Passed (mkArray (raw_rows x) (raw_cols x)
                (fun i j =>
                   (alpha_over_white (raw_at x i j 0) (raw_at x i j 3),
                    alpha_over_white (raw_at x i j 1) (raw_at x i j 3),
                    alpha_over_white (raw_at x i j 2) (raw_at x i j 3)))).

(** ** test_app.py *)

(** [round(x, 1)] on a float. *)
Definition py_round1 (x : Q) : Q := (np_round (x * 10) / 10)%Q.

(** The tuple that [randomize_params] returns. *)
Record Params : Type := mkParams {
  p_output_size : Z;
  p_num_copies : Z;
  p_is_flip : bool;
  p_rotation_range : Z;
  p_min_scale : Q;
  p_max_scale : Q;
  p_source_is_avg_color_fill : bool;
  p_source_is_edge_mode_fill : bool;
  p_target_is_avg_color_fill : bool;
  p_target_is_edge_mode_fill : bool;
  p_expand_to_long_side : bool
}.

(** test_app.py, [randomize_params]. *)
Definition randomize_params : M Params :=
  output_size <- choice [512; 768; 1024; 1536; 2048] ;;
  num_copies <- randint 1 5 ;;
  is_flip <- choice [true; false] ;;
  rotation_range <- randint 0 180 ;;
  min_scale <- (u <- uniform (1 # 10) 1 ;; ret (py_round1 u)) ;;
  max_scale <- (u <- uniform 1 2 ;; ret (py_round1 u)) ;;
  source_is_avg_color_fill <- choice [true; false] ;;
  source_is_edge_mode_fill <- choice [true; false] ;;
  target_is_avg_color_fill <- choice [true; false] ;;
  target_is_edge_mode_fill <- choice [true; false] ;;
  expand_to_long_side <- choice [true; false] ;;
  ret (mkParams output_size num_copies is_flip rotation_range min_scale max_scale
         source_is_avg_color_fill source_is_edge_mode_fill
         target_is_avg_color_fill target_is_edge_mode_fill expand_to_long_side).

(** The keyword arguments that the GUI passes on to [process_images] for a
    parameter tuple. *)
Definition params_config (p : Params) : Config :=
  mkConfig (p_output_size p, p_output_size p) (p_is_flip p)
    (inject_Z (p_rotation_range p)) (p_min_scale p) (p_max_scale p)
    (p_source_is_avg_color_fill p) (p_source_is_edge_mode_fill p)
    (p_target_is_avg_color_fill p) (p_target_is_edge_mode_fill p)
    (p_expand_to_long_side p).

Section App.

Variable rotate_affine : Image -> Q -> color -> Image.
Variable resample : Image -> Z -> Z -> Z -> Z -> color.

(** [Image.open(path)]. *)
Variable Image_open : string -> result Image.

(** test_app.py, [process_multiple_images]: the loop over
    [zip(source_images, target_images)]; a file object is its [name]. *)
Fixpoint process_multiple_images_loop (pairs : list (string * string)) (p : Params)
    (result_source_images result_target_images : list Image)
  : M (list Image * list Image) :=
  match pairs with
  | [] => ret (result_source_images, result_target_images)
  | (source_path, target_path) :: rest =>
      source_img <- lift (Image_open source_path) ;;
      target_img <- lift (Image_open target_path) ;;
      '(aug_sources, aug_targets) <-
        process_images rotate_affine resample source_img target_img (p_num_copies p)
          (params_config p) ;;
      process_multiple_images_loop rest p
        (result_source_images ++ aug_sources) (result_target_images ++ aug_targets)
  end.

Definition process_multiple_images (source_images target_images : list string) (p : Params)
  : M (list Image * list Image) :=
  process_multiple_images_loop (combine source_images target_images) p [] [].

End App.

(** ** Properties named by the specification *)

Definition color_eq_dec (a b : color) : {a = b} + {a <> b}.
Proof. repeat decide equality. Defined.

(** How often [c] occurs in [l]. *)
Definition occurrences (c : color) (l : list color) : Z :=
  Z.of_nat (count_occ color_eq_dec l c).

(** [c] is a most frequent value of [l]. *)
Definition most_frequent (c : color) (l : list color) : Prop :=
  In c l /\ forall c', occurrences c' l <= occurrences c l.

Definition channel_sum (ch : color -> Z) (l : list color) : Z :=
  fold_right Z.add 0 (map ch l).

Definition red (c : color) : Z := fst (fst c).
Definition green (c : color) : Z := snd (fst c).
Definition blue (c : color) : Z := snd c.

(** [c] is the per-channel mean of [img], each channel truncated to an int. *)
Definition truncated_mean (img : Image) (c : color) : Prop :=
  let data := getdata img in
  let n := Z.of_nat (List.length data) in
  0 < n /\
  c = (Z.quot (channel_sum red data) n, Z.quot (channel_sum green data) n,
       Z.quot (channel_sum blue data) n).


(** The count that a counter holds for [c], zero when [c] is not a key. *)
Fixpoint count_in (cnt : list (color * Z)) (c : color) : Z :=
  match cnt with
  | [] => 0
  | (k, n) :: rest => if color_eqb k c then n else count_in rest c
  end.

(** The keys of a counter are distinct and its counts positive. *)
Definition counter_ok (cnt : list (color * Z)) : Prop :=
  NoDup (map fst cnt) /\ Forall (fun kn => 1 <= snd kn) cnt.

(** The centred square of side [min(width, height)]. *)
Definition center_square_crop (img : Image) : Image :=
  let s := Z.min (width img) (height img) in
  let l := (width img - s) / 2 in
  let t := (height img - s) / 2 in
  crop img (l, t, l + s, t + s).

(** A non-empty image. *)
Definition positive_size (img : Image) : Prop := 0 < width img /\ 0 < height img.

(** Every pixel of a non-empty image or array is [c]. *)
Definition solid_image (img : Image) (c : color) : Prop :=
  0 < width img /\ 0 < height img /\
  forall x y, 0 <= x < width img -> 0 <= y < height img -> pixels img x y = c.

Definition solid_array (a : ndarray color) (c : color) : Prop :=
  0 < rows a /\ 0 < cols a /\
  forall y x, 0 <= y < rows a -> 0 <= x < cols a -> at_ a y x = c.

(** Every entry of a non-empty float array equals [c], channel by channel. *)
Definition solid_farray (a : ndarray fcolor) (c : color) : Prop :=
  0 < rows a /\ 0 < cols a /\
  forall y x, 0 <= y < rows a -> 0 <= x < cols a ->
    (chan_r (at_ a y x) == inject_Z (red c))%Q /\
    (chan_g (at_ a y x) == inject_Z (green c))%Q /\
    (chan_b (at_ a y x) == inject_Z (blue c))%Q.

(** ** Instances of the interpolating kernels for the worked examples *)

(** Nearest-neighbour resampling. *)
Definition nearest_resample (img : Image) (w h x y : Z) : color :=
  pixels img (x * width img / w) (y * height img / h).

Definition nearest_cv2 (a : ndarray color) (w h : Z) (i : interpolation) (y x : Z) : color :=
  at_ a (y * rows a / h) (x * cols a / w).

(** A normalised three-tap kernel. *)
Definition tent_kernel (sigma : Q) : list Q := [1 # 4; 1 # 2; 1 # 4]%Q.

(** A canvas that holds the image at any angle, filled with the fill colour. *)
Definition blank_rotate (img : Image) (a : Q) (fill : color) : Image :=
  Image_new (width img + height img, width img + height img) fill.

(** Example inputs. *)
Definition strip3 : Image := mkImage 3 1 (fun x _ => (100 * x, 0, 0)).
Definition wide4x2 : Image := mkImage 4 2 (fun x y => (x, y, 0)).
Definition square2 : Image := mkImage 2 2 (fun x y => (x, y, 7)).
Definition empty_image : Image := mkImage 0 0 (fun _ _ => (0, 0, 0)).

Definition wide8x4 : Image := mkImage 8 4 (fun x y => (x, y, 1)).
Definition teal3x2 : Image := Image_new (3, 2) (10, 20, 30).

(** No flip, no rotation, scale 1, white fill, no expansion. *)
Definition plain_config (out : Z) : Config :=
  mkConfig (out, out) false 0 1 1 false false false false false.

(** Rotation range 40 with long-side expansion. *)
Definition expand_rotate_config : Config :=
  mkConfig (2, 2) false 40 1 1 false false false false true.

(** Rotation range 40 and flip; edge-mode fill for the source, average fill
    for the target. *)
Definition flip_rotate_config : Config :=
  mkConfig (2, 2) true 40 1 1 false true true false false.

(** A generator state whose first word makes [random()] return one half, so
    that [uniform(-40, 40)] is 0. *)
Definition zero_angle_tape : Rng := [4503599627370496; 1; 0; 2; 0]%N.

(** Inputs of the further examples. *)
Definition rgba_1x2 : raw_array :=
  mkRaw 1 2 (Some 4) true
    (fun _ j c => if c =? 3 then (if j =? 0 then 0 else 255) else 10 * (c + 1)).
Definition framed6 : Image :=
  mkImage 6 6 (fun x y => if (2 <=? x) && (x <? 4) && (2 <=? y) && (y <? 4)
                          then (255, 255, 255) else (0, 0, 0)).
Definition zero_scale_config : Config :=
  mkConfig (2, 2) false 0 0 0 false false false false false.
Definition plain_params : Params :=
  mkParams 2 2 false 0 1 1 false false false false false.
Definition open_wide4x2 (path : string) : result Image := Ok wide4x2.

(** ** The monad *)

Lemma bind_ok {A B} (m : M A) (k : A -> M B) g b g' :
  bind m k g = Ok (b, g') ->
  exists a g1, m g = Ok (a, g1) /\ k a g1 = Ok (b, g').
Proof.
  unfold bind. destruct (m g) as [[a g1]|e]; [|discriminate].
  intros H. exists a, g1. split; [reflexivity|exact H].
Qed.

Lemma lift_ok {A} (r : result A) g a g' :
  lift r g = Ok (a, g') -> r = Ok a /\ g' = g.
Proof.
  unfold lift. destruct r; [|discriminate].
  intros H. inversion H. split; reflexivity.
Qed.

Lemma ret_ok {A} (a : A) g b g' : ret a g = Ok (b, g') -> b = a /\ g' = g.
Proof. unfold ret. intros H. inversion H. split; reflexivity. Qed.

Lemma next_word_ok g w g' : next_word g = Ok (w, g') -> g' = skipn 1 g.
Proof.
  unfold next_word. destruct g; intros H; inversion H; reflexivity.
Qed.

Lemma next_word_total g : exists w, next_word g = Ok (w, skipn 1 g).
Proof. destruct g; simpl; eauto. Qed.

Lemma skipn_skipn_1 {A} n (g : list A) : skipn n (skipn 1 g) = skipn (S n) g.
Proof. destruct g; [destruct n; reflexivity|reflexivity]. Qed.

Lemma uniform_ok a b g q g' :
  uniform a b g = Ok (q, g') ->
  g' = skipn 1 g /\ exists u, (0 <= u)%Q /\ (u < 1)%Q /\ q = (a + (b - a) * u)%Q.
Proof.
  unfold uniform, random. intros H.
  apply bind_ok in H. destruct H as (u & g1 & Hu & H).
  apply bind_ok in Hu. destruct Hu as (w & g2 & Hw & Hu).
  apply ret_ok in Hu. destruct Hu as [-> ->].
  apply ret_ok in H. destruct H as [-> ->].
  split; [eapply next_word_ok; eassumption|].
  eexists. split; [|split; [|reflexivity]].
  - unfold Qle. simpl.
    pose proof (N2Z.is_nonneg (w mod 2 ^ 53)) as Hn.
    rewrite Z.mul_1_r. exact Hn.
  - unfold Qlt. simpl. rewrite Z.mul_1_r.
    pose proof (N.mod_upper_bound w (2 ^ 53)%N ltac:(discriminate)) as Hn.
    apply N2Z.inj_lt in Hn. exact Hn.
Qed.

Lemma uniform_total a b g : exists q, uniform a b g = Ok (q, skipn 1 g).
Proof.
  destruct (next_word_total g) as [w Hw].
  unfold uniform, random, bind, ret. rewrite Hw. eauto.
Qed.

Lemma randint_ok a b g n g' :
  randint a b g = Ok (n, g') -> g' = skipn 1 g /\ a <= n <= b.
Proof.
  unfold randint. destruct (0 <? b + 1 - a) eqn:E; [|discriminate].
  apply Z.ltb_lt in E. intros H.
  apply bind_ok in H. destruct H as (r & g1 & Hr & H).
  apply ret_ok in H. destruct H as [-> ->].
  unfold _randbelow in Hr.
  apply bind_ok in Hr. destruct Hr as (w & g2 & Hw & Hr).
  apply ret_ok in Hr. destruct Hr as [-> ->].
  split; [eapply next_word_ok; eassumption|].
  pose proof (Z.mod_pos_bound (Z.of_N w) (b + 1 - a) E). lia.
Qed.

Lemma randint_total a b g :
  a <= b -> exists n, randint a b g = Ok (n, skipn 1 g).
Proof.
  intros Hab. unfold randint.
  destruct (0 <? b + 1 - a) eqn:E; [|apply Z.ltb_ge in E; lia].
  destruct (next_word_total g) as [w Hw].
  unfold _randbelow, bind, ret. rewrite Hw. eauto.
Qed.

Lemma randint_raises a b g :
  b < a -> randint a b g = Raise (ValueError "empty range for randrange()").
Proof.
  intros Hab. unfold randint.
  destruct (0 <? b + 1 - a) eqn:E; [apply Z.ltb_lt in E; lia|reflexivity].
Qed.

Lemma choice_bool_ok g h g' :
  choice [true; false] g = Ok (h, g') -> g' = skipn 1 g.
Proof.
  unfold choice, _randbelow. intros H.
  apply bind_ok in H. destruct H as (i & g1 & Hi & H).
  apply ret_ok in H. destruct H as [_ ->].
  apply bind_ok in Hi. destruct Hi as (w & g2 & Hw & Hi).
  apply ret_ok in Hi. destruct Hi as [_ ->].
  eapply next_word_ok; eassumption.
Qed.

Lemma choice_bool_total g : exists h, choice [true; false] g = Ok (h, skipn 1 g).
Proof.
  destruct (next_word_total g) as [w Hw].
  unfold choice, _randbelow, bind, ret. rewrite Hw. eauto.
Qed.

Lemma floordiv_ok a b q : floordiv a b = Ok q -> b <> 0 /\ q = a / b.
Proof.
  unfold floordiv. destruct (b =? 0) eqn:E; [discriminate|].
  apply Z.eqb_neq in E. intros H. inversion H. split; [exact E|reflexivity].
Qed.

Lemma truediv_ok a b q : truediv a b = Ok q -> ~ (b == 0)%Q /\ q = (a / b)%Q.
Proof.
  unfold truediv. destruct (Qeq_bool b 0) eqn:E; [discriminate|].
  intros H. inversion H. split; [|reflexivity].
  intros Hb. apply Qeq_bool_iff in Hb. congruence.
Qed.

Lemma bind_eq {A B} (m : M A) (k : A -> M B) g a g1 :
  m g = Ok (a, g1) -> bind m k g = k a g1.
Proof. unfold bind. intros ->. reflexivity. Qed.

Lemma bind_lift_eq {A B} (r : result A) (k : A -> M B) g a :
  r = Ok a -> bind (lift r) k g = k a g.
Proof. intros ->. reflexivity. Qed.

(** ** Arithmetic of [int] and of float comparisons *)

Lemma int_nonneg (x : Q) : (0 <= x)%Q -> int x = Qfloor x.
Proof.
  destruct x as [n d]. unfold Qle, int, Qfloor. simpl. intros H.
  rewrite Z.mul_1_r in H. apply Z.quot_div_nonneg; lia.
Qed.

Lemma int_inject_Z (z : Z) : int (inject_Z z) = z.
Proof. unfold int, inject_Z. simpl. apply Z.quot_1_r. Qed.

Lemma int_Qeq (x y : Q) : (x == y)%Q -> int x = int y.
Proof.
  intros E. destruct (Qlt_le_dec x 0) as [Hneg|Hpos].
  - assert (Hy : (y < 0)%Q) by (rewrite <- E; exact Hneg).
    assert (Hx' : (0 <= - x)%Q) by lra.
    assert (Hy' : (0 <= - y)%Q) by lra.
    assert (Ex : int x = - int (- x)).
    { destruct x as [n d]. unfold int, Qopp. simpl. rewrite Z.quot_opp_l by lia. lia. }
    assert (Ey : int y = - int (- y)).
    { destruct y as [n d]. unfold int, Qopp. simpl. rewrite Z.quot_opp_l by lia. lia. }
    rewrite Ex, Ey, (int_nonneg _ Hx'), (int_nonneg _ Hy').
    f_equal. apply Qfloor_comp. rewrite E. reflexivity.
  - assert (Hy : (0 <= y)%Q) by (rewrite <- E; exact Hpos).
    rewrite (int_nonneg _ Hpos), (int_nonneg _ Hy). apply Qfloor_comp. exact E.
Qed.

Lemma int_mono (x y : Q) : (0 <= x)%Q -> (x <= y)%Q -> 0 <= int x <= int y.
Proof.
  intros Hx Hxy. assert (Hy : (0 <= y)%Q) by lra.
  rewrite (int_nonneg _ Hx), (int_nonneg _ Hy). split.
  - rewrite <- (Qfloor_Z 0). apply Qfloor_resp_le. exact Hx.
  - apply Qfloor_resp_le. exact Hxy.
Qed.

Lemma Qgtb_true x y : Qgtb x y = true <-> (y < x)%Q.
Proof.
  unfold Qgtb. rewrite negb_true_iff. split.
  - intros H. apply Qnot_le_lt. intros Hle. apply Qle_bool_iff in Hle. congruence.
  - intros H. destruct (Qle_bool x y) eqn:E; [|reflexivity].
    apply Qle_bool_iff in E. lra.
Qed.

Lemma Qgtb_false x y : Qgtb x y = false <-> (x <= y)%Q.
Proof.
  unfold Qgtb. rewrite negb_false_iff. apply Qle_bool_iff.
Qed.

(** The crop of one image fits its scaled canvas. *)
Lemma crop_size_fits (base : Image) (cs : Q) (fill : color) :
  0 < width base -> 0 < height base -> (0 < cs)%Q ->
  let scaled := if Qgtb cs 1 then grown_canvas base cs fill else base in
  let crop_size := int (inject_Z (Z.min (height base) (width base)) * cs) in
  0 <= crop_size /\ crop_size <= width scaled /\ crop_size <= height scaled.
Proof.
  intros Hw Hh Hcs scaled crop_size.
  assert (Hm : (0 <= inject_Z (Z.min (height base) (width base)))%Q).
  { rewrite <- (Zle_Qle 0). lia. }
  assert (Hmw : (inject_Z (Z.min (height base) (width base)) <= inject_Z (width base))%Q).
  { rewrite <- Zle_Qle. lia. }
  assert (Hmh : (inject_Z (Z.min (height base) (width base)) <= inject_Z (height base))%Q).
  { rewrite <- Zle_Qle. lia. }
  assert (H0 : (0 <= inject_Z (Z.min (height base) (width base)) * cs)%Q).
  { apply Qmult_le_0_compat; lra. }
  subst scaled crop_size. destruct (Qgtb cs 1) eqn:E.
  - unfold grown_canvas. cbn [width height paste Image_new fst snd].
    split; [|split].
    + apply (int_mono _ _ H0 (Qle_refl _)).
    + apply int_mono; [exact H0|]. apply Qmult_le_compat_r; lra.
    + apply int_mono; [exact H0|]. apply Qmult_le_compat_r; lra.
  - apply Qgtb_false in E.
    assert (Hle : (inject_Z (Z.min (height base) (width base)) * cs
                   <= inject_Z (Z.min (height base) (width base)))%Q).
    { rewrite <- (Qmult_1_r (inject_Z (Z.min (height base) (width base)))) at 2.
      rewrite (Qmult_comm _ cs), (Qmult_comm _ 1).
      apply Qmult_le_compat_r; lra. }
    pose proof (int_mono _ _ H0 Hle) as [Ha Hb].
    rewrite int_inject_Z in Hb. lia.
Qed.

(** ** Fill colours *)

Lemma color_eqb_eq (a b : color) : color_eqb a b = true <-> a = b.
Proof.
  destruct a as [[r1 g1] b1], b as [[r2 g2] b2]. unfold color_eqb.
  rewrite !andb_true_iff, !Z.eqb_eq. split.
  - intros [[-> ->] ->]. reflexivity.
  - intros H. inversion H. auto.
Qed.

Lemma color_eqb_neq (a b : color) : color_eqb a b = false <-> a <> b.
Proof.
  split.
  - intros E H. apply color_eqb_eq in H. congruence.
  - intros H. destruct (color_eqb a b) eqn:E; [|reflexivity].
    apply color_eqb_eq in E. contradiction.
Qed.

Lemma Counter_incr_keys c cnt k :
  In k (map fst (Counter_incr c cnt)) <-> k = c \/ In k (map fst cnt).
Proof.
  induction cnt as [|[k0 n0] rest IH]; simpl.
  - intuition.
  - destruct (color_eqb k0 c) eqn:E; simpl.
    + apply color_eqb_eq in E. subst. intuition.
    + rewrite IH. intuition.
Qed.

Lemma Counter_incr_ok c cnt : counter_ok cnt -> counter_ok (Counter_incr c cnt).
Proof.
  unfold counter_ok. induction cnt as [|[k0 n0] rest IH]; simpl; intros [Hnd Hpos].
  - split; constructor; simpl; auto. lia.
  - inversion Hnd; subst. inversion Hpos; subst. simpl in *.
    destruct (color_eqb k0 c) eqn:E; simpl.
    + split; constructor; simpl; auto. lia.
    + destruct (IH (conj H2 H4)) as [Hnd' Hpos'].
      split; constructor; auto.
      rewrite Counter_incr_keys. intros [->|Hin]; [|contradiction].
      apply color_eqb_neq in E. congruence.
Qed.

Lemma Counter_incr_count c cnt c' :
  count_in (Counter_incr c cnt) c' = count_in cnt c' + (if color_eqb c c' then 1 else 0).
Proof.
  induction cnt as [|[k0 n0] rest IH]; simpl.
  - destruct (color_eqb c c'); reflexivity.
  - destruct (color_eqb k0 c) eqn:E; simpl.
    + apply color_eqb_eq in E. subst k0.
      destruct (color_eqb c c'); lia.
    + destruct (color_eqb k0 c') eqn:E'.
      * apply color_eqb_eq in E'. subst k0. rewrite (proj2 (color_eqb_neq c c')).
        -- lia.
        -- apply color_eqb_neq in E. congruence.
      * exact IH.
Qed.

Lemma occurrences_cons c x l :
  occurrences c (x :: l) = occurrences c l + (if color_eqb x c then 1 else 0).
Proof.
  unfold occurrences. simpl. destruct (color_eq_dec x c) as [->|Hne].
  - rewrite (proj2 (color_eqb_eq c c) eq_refl). lia.
  - rewrite (proj2 (color_eqb_neq x c) Hne). lia.
Qed.

Lemma Counter_fold_count l : forall acc c,
  count_in (fold_left (fun cnt x => Counter_incr x cnt) l acc) c
  = count_in acc c + occurrences c l.
Proof.
  induction l as [|x l IH]; intros acc c; simpl.
  - unfold occurrences. simpl. lia.
  - rewrite IH, Counter_incr_count, occurrences_cons. lia.
Qed.

Lemma Counter_fold_ok l : forall acc,
  counter_ok acc -> counter_ok (fold_left (fun cnt x => Counter_incr x cnt) l acc).
Proof.
  induction l as [|x l IH]; intros acc H; simpl; [exact H|].
  apply IH, Counter_incr_ok, H.
Qed.

Lemma Counter_count l c : count_in (Counter l) c = occurrences c l.
Proof. unfold Counter. rewrite Counter_fold_count. reflexivity. Qed.

Lemma Counter_ok l : counter_ok (Counter l).
Proof.
  apply Counter_fold_ok. split; constructor.
Qed.

Lemma count_in_In cnt c : count_in cnt c <> 0 -> In (c, count_in cnt c) cnt.
Proof.
  induction cnt as [|[k0 n0] rest IH]; simpl; [congruence|].
  destruct (color_eqb k0 c) eqn:E.
  - apply color_eqb_eq in E. subst. auto.
  - auto.
Qed.

Lemma In_count_in cnt c n :
  NoDup (map fst cnt) -> In (c, n) cnt -> count_in cnt c = n.
Proof.
  induction cnt as [|[k0 n0] rest IH]; simpl; [contradiction|].
  intros Hnd [H|H].
  - inversion H; subst. rewrite (proj2 (color_eqb_eq c c) eq_refl). reflexivity.
  - inversion Hnd; subst. destruct (color_eqb k0 c) eqn:E.
    + apply color_eqb_eq in E. subst. exfalso. apply H2.
      change c with (fst (c, n)). apply in_map. exact H.
    + auto.
Qed.

Lemma max_fold_spec (rest : list (color * Z)) : forall x,
  let m := fold_left (fun best y => if snd best <? snd y then y else best) rest x in
  In m (x :: rest) /\ forall y, In y (x :: rest) -> snd y <= snd m.
Proof.
  induction rest as [|z rest IH]; intros x; simpl.
  - split; [auto|]. intros y [->|[]]. lia.
  - destruct (snd x <? snd z) eqn:E.
    + destruct (IH z) as [Hin Hmax]. simpl in Hin, Hmax. split.
      * destruct Hin; auto.
      * intros y [->|[->|Hy]]; auto.
        apply Z.ltb_lt in E. specialize (Hmax z (or_introl eq_refl)). lia.
    + destruct (IH x) as [Hin Hmax]. simpl in Hin, Hmax. split.
      * destruct Hin; auto.
      * intros y [->|[->|Hy]]; auto.
        apply Z.ltb_ge in E. specialize (Hmax x (or_introl eq_refl)). lia.
Qed.

Lemma get_edge_mode_color_spec img edge_width c :
  get_edge_mode_color img edge_width = Ok c ->
  most_frequent c (edge_colors img edge_width).
Proof.
  unfold get_edge_mode_color. set (colors := edge_colors img edge_width).
  destruct (Counter colors) as [|x rest] eqn:E; simpl; [discriminate|].
  pose proof (max_fold_spec rest x) as [Hin Hmax].
  set (m := fold_left _ rest x) in *. destruct m as [mc mn] eqn:Em.
  intros H. inversion H; subst mc. clear H.
  rewrite <- E in Hin, Hmax.
  destruct (Counter_ok colors) as [Hnd Hpos].
  pose proof (In_count_in _ _ _ Hnd Hin) as Hc. rewrite Counter_count in Hc.
  assert (Hge : 1 <= mn).
  { rewrite Forall_forall in Hpos. apply (Hpos _ Hin). }
  split.
  - apply (count_occ_In color_eq_dec). unfold occurrences in Hc. lia.
  - intros c'. rewrite Hc.
    destruct (Z.eq_dec (occurrences c' colors) 0) as [Hz|Hnz]; [lia|].
    rewrite <- Counter_count in Hnz. apply count_in_In in Hnz.
    rewrite Counter_count in Hnz. apply (Hmax _ Hnz).
Qed.

Lemma band_sums_fold l : forall sr sg sb,
  fold_left (fun '(sr, sg, sb) '(r, g, b) => (sr + r, sg + g, sb + b)) l (sr, sg, sb)
  = (sr + channel_sum red l, sg + channel_sum green l, sb + channel_sum blue l).
Proof.
  induction l as [|[[r g] b] l IH]; intros sr sg sb; simpl.
  - unfold channel_sum. simpl. f_equal; [f_equal|]; lia.
  - rewrite IH. unfold channel_sum, red, green, blue. simpl. f_equal; [f_equal|]; lia.
Qed.

Lemma int_div_pos (s n : Z) : 0 < n -> int (inject_Z s / inject_Z n) = Z.quot s n.
Proof.
  intros Hn. destruct n as [|p|p]; try lia.
  unfold int, Qdiv, Qinv, Qmult, inject_Z. simpl.
  rewrite Z.mul_1_r. reflexivity.
Qed.

Lemma get_average_color_spec img c :
  get_average_color img = Ok c -> truncated_mean img c.
Proof.
  unfold get_average_color, ImageStat_mean, truncated_mean, band_sums.
  rewrite band_sums_fold. simpl.
  destruct (Z.of_nat (List.length (getdata img)) =? 0) eqn:E; [discriminate|].
  intros H. inversion H; subst. clear H.
  assert (Hn : 0 < Z.of_nat (List.length (getdata img))).
  { apply Z.eqb_neq in E. lia. }
  split; [exact Hn|]. rewrite !int_div_pos by exact Hn. reflexivity.
Qed.


(** ** Pixel data *)

Lemma range_pos n : 0 < n -> exists l, range n = 0 :: l.
Proof.
  intros H. unfold range. destruct (Z.to_nat n) as [|k] eqn:E; [lia|].
  simpl. eauto.
Qed.

Lemma getdata_nonempty img : 0 < width img -> 0 < height img -> getdata img <> [].
Proof.
  intros Hw Hh. unfold getdata.
  destruct (range_pos _ Hw) as [lw ->]. destruct (range_pos _ Hh) as [lh ->].
  simpl. discriminate.
Qed.

Lemma Counter_nonempty l : l <> [] -> Counter l <> [].
Proof.
  destruct l as [|c l]; [congruence|]. intros _ E.
  pose proof (Counter_count (c :: l) c) as H. rewrite E in H. simpl in H.
  rewrite occurrences_cons in H. rewrite (proj2 (color_eqb_eq c c) eq_refl) in H.
  unfold occurrences in H. lia.
Qed.

Lemma get_edge_mode_color_total img :
  0 < height img -> exists c, get_edge_mode_color img 10 = Ok c.
Proof.
  intros Hh. unfold get_edge_mode_color.
  assert (Hne : edge_colors img 10 <> []).
  { unfold edge_colors. intros E. apply app_eq_nil in E. destruct E as [E _].
    revert E. apply getdata_nonempty; simpl; lia. }
  apply Counter_nonempty in Hne.
  destruct (Counter (edge_colors img 10)) as [|x rest]; [congruence|].
  simpl. destruct (fold_left _ rest x) as [c n]. eauto.
Qed.

Lemma get_average_color_total img :
  0 < width img -> 0 < height img -> exists c, get_average_color img = Ok c.
Proof.
  intros Hw Hh. unfold get_average_color, ImageStat_mean.
  destruct (band_sums (getdata img)) as [[sr sg] sb].
  pose proof (getdata_nonempty img Hw Hh) as Hne.
  destruct (getdata img) as [|c l]; [congruence|].
  destruct (Z.of_nat (List.length (c :: l)) =? 0) eqn:E.
  - apply Z.eqb_eq in E. simpl in E. lia.
  - eauto.
Qed.

Lemma fill_color_total (edge_mode avg : bool) img :
  0 < width img -> 0 < height img ->
  exists c, (if edge_mode then get_edge_mode_color img 10
             else if avg then get_average_color img
             else Ok (255, 255, 255)) = Ok c.
Proof.
  intros Hw Hh. destruct edge_mode; [apply get_edge_mode_color_total; exact Hh|].
  destruct avg; [apply get_average_color_total; assumption|eauto].
Qed.

(** ** Sizes *)

Lemma long_side_canvas_positive base fill :
  positive_size base -> positive_size (long_side_canvas base fill).
Proof. unfold positive_size, long_side_canvas. simpl. lia. Qed.

Lemma apply_random_flip_positive img h :
  positive_size img -> positive_size (apply_random_flip img h).
Proof. destruct h; unfold positive_size; simpl; auto. Qed.

(** ** dataset_aug.py: what one draw establishes *)

Section AugmenterFacts.

Variable rotate_affine : Image -> Q -> color -> Image.
Variable resample : Image -> Z -> Z -> Z -> Z -> color.

Lemma locals_inv src tgt cfg g L g' :
  process_image_pair_locals rotate_affine src tgt cfg g = Ok (L, g') ->
  draw_facts rotate_affine src tgt cfg g L g'.
Proof.
  unfold process_image_pair_locals, size. intros H.
  apply bind_ok in H. destruct H as (sfill & g1 & Hsf & H).
  apply lift_ok in Hsf. destruct Hsf as [Hsf ->].
  apply bind_ok in H. destruct H as (tfill & g2 & Htf & H).
  apply lift_ok in Htf. destruct Htf as [Htf ->].
  set (es := if expand_to_long_side cfg then long_side_canvas src sfill else src).
  set (et := if expand_to_long_side cfg then long_side_canvas tgt tfill else tgt).
  assert (Hex : (if expand_to_long_side cfg
                 then (long_side_canvas src sfill, long_side_canvas tgt tfill)
                 else (src, tgt)) = (es, et))
    by (subst es et; destruct (expand_to_long_side cfg); reflexivity).
  rewrite Hex in H. clear Hex.
  apply bind_ok in H. destruct H as ([[a rs] rt] & g3 & Hrot & H).
  apply bind_ok in H. destruct H as ([[h bs] bt] & g4 & Hflip & H).
  apply bind_ok in H. destruct H as (sc & g5 & Hsc & H).
  apply bind_ok in H. destruct H as (cs & g6 & Hcs & H).
  apply lift_ok in Hcs. destruct Hcs as [Hcs ->].
  set (ss := if Qgtb cs 1 then grown_canvas bs cs sfill else bs) in *.
  set (st := if Qgtb cs 1 then grown_canvas bt cs tfill else bt) in *.
  assert (Hgr : (if Qgtb cs 1
                 then (grown_canvas bs cs sfill, grown_canvas bt cs tfill)
                 else (bs, bt)) = (ss, st))
    by (subst ss st; destruct (Qgtb cs 1); reflexivity).
  rewrite Hgr in H. clear Hgr.
  apply bind_ok in H. destruct H as (ls & g7 & Hls & H).
  apply bind_ok in H. destruct H as (ts & g8 & Hts & H).
  apply bind_ok in H. destruct H as (lt & g9 & Hlt & H).
  apply lift_ok in Hlt. destruct Hlt as [Hlt ->].
  apply bind_ok in H. destruct H as (tt & g10 & Htt & H).
  apply lift_ok in Htt. destruct Htt as [Htt ->].
  apply ret_ok in H. destruct H as [-> ->].
  apply uniform_ok in Hsc. destruct Hsc as [-> Hu].
  apply truediv_ok in Hcs. destruct Hcs as [Hnz ->].
  apply randint_ok in Hls. destruct Hls as [-> Hls].
  apply randint_ok in Hts. destruct Hts as [-> Hts].
  apply floordiv_ok in Hlt. destruct Hlt as [Hw ->].
  apply floordiv_ok in Htt. destruct Htt as [Hh ->].
  assert (Hrot' :
    if Qgtb (rotation_range cfg) 0 then
      exists a0, uniform (- rotation_range cfg) (rotation_range cfg) g = Ok (a0, skipn 1 g) /\
        a = Some a0 /\ rs = rotate_image rotate_affine src a0 sfill /\
        rt = rotate_image rotate_affine tgt a0 tfill /\ g3 = skipn 1 g
    else a = None /\ rs = es /\ rt = et /\ g3 = g).
  { destruct (Qgtb (rotation_range cfg) 0).
    - apply bind_ok in Hrot. destruct Hrot as (a0 & g0 & Ha0 & Hrot).
      apply ret_ok in Hrot. destruct Hrot as [Hrot ->]. inversion Hrot; subst.
      pose proof (uniform_ok _ _ _ _ _ Ha0) as [-> _].
      exists a0. repeat split; auto.
    - apply ret_ok in Hrot. destruct Hrot as [Hrot ->]. inversion Hrot; subst.
      repeat split; auto. }
  assert (Hflip' :
    if is_flip cfg then
      exists h0, h = Some h0 /\ bs = apply_random_flip rs h0 /\
        bt = apply_random_flip rt h0 /\ g4 = skipn 1 g3
    else h = None /\ bs = rs /\ bt = rt /\ g4 = g3).
  { destruct (is_flip cfg).
    - apply bind_ok in Hflip. destruct Hflip as (h0 & g0 & Hh0 & Hflip).
      apply ret_ok in Hflip. destruct Hflip as [Hflip ->]. inversion Hflip; subst.
      apply choice_bool_ok in Hh0. subst g0.
      exists h0. repeat split; auto.
    - apply ret_ok in Hflip. destruct Hflip as [Hflip ->]. inversion Hflip; subst.
      repeat split; auto. }
  assert (Hrng : skipn 1 (skipn 1 (skipn 1 g4)) = skipn (words_drawn cfg) g).
  { unfold words_drawn.
    destruct (Qgtb (rotation_range cfg) 0), (is_flip cfg).
    - destruct Hrot' as (a0 & _ & _ & _ & _ & ->). destruct Hflip' as (h0 & _ & _ & _ & ->).
      rewrite !skipn_skipn. reflexivity.
    - destruct Hrot' as (a0 & _ & _ & _ & _ & ->). destruct Hflip' as (_ & _ & _ & ->).
      rewrite !skipn_skipn. reflexivity.
    - destruct Hrot' as (_ & _ & _ & ->). destruct Hflip' as (h0 & _ & _ & _ & ->).
      rewrite !skipn_skipn. reflexivity.
    - destruct Hrot' as (_ & _ & _ & ->). destruct Hflip' as (_ & _ & _ & ->).
      rewrite !skipn_skipn. reflexivity. }
  constructor;
    cbn [source_fill_color target_fill_color expanded_source expanded_target angle
         rotated_source rotated_target is_horizontal base_source base_target scale
         canvas_scale scaled_source scaled_target crop_source_size crop_target_size
         left_source top_source left_target top_target]; auto.
  - destruct (Qgtb (rotation_range cfg) 0).
    + destruct Hrot' as (a0 & ? & ? & ? & ? & ?). exists a0. auto.
    + destruct Hrot' as (? & ? & ? & ?). auto.
  - destruct (is_flip cfg).
    + destruct Hflip' as (h0 & ? & ? & ? & ?). exists h0. auto.
    + destruct Hflip' as (? & ? & ? & ?). auto.
Qed.
Lemma process_image_pair_inv src tgt cfg g fs ft g' :
  process_image_pair rotate_affine resample src tgt cfg g = Ok ((fs, ft), g') ->
  exists L,
    process_image_pair_locals rotate_affine src tgt cfg g = Ok (L, g') /\
    Image_resize resample
      (crop_square (scaled_source L) (left_source L) (top_source L) (crop_source_size L))
      (output_size cfg) = Ok fs /\
    Image_resize resample
      (crop_square (scaled_target L) (left_target L) (top_target L) (crop_target_size L))
      (output_size cfg) = Ok ft.
Proof.
  unfold process_image_pair. intros H.
  apply bind_ok in H. destruct H as (L & g1 & HL & H).
  apply bind_ok in H. destruct H as (fs' & g2 & Hfs & H).
  apply lift_ok in Hfs. destruct Hfs as [Hfs ->].
  apply bind_ok in H. destruct H as (ft' & g3 & Hft & H).
  apply lift_ok in Hft. destruct Hft as [Hft ->].
  apply ret_ok in H. destruct H as [H ->]. inversion H; subst.
  exists L. auto.
Qed.

Lemma Image_resize_size img sz out :
  Image_resize resample img sz = Ok out ->
  width out = fst sz /\ height out = snd sz.
Proof.
  destruct sz as [w h]. unfold Image_resize. simpl.
  destruct ((w =? width img) && (h =? height img)) eqn:E.
  - apply andb_true_iff in E. destruct E as [Ew Eh].
    apply Z.eqb_eq in Ew, Eh. intros H. inversion H; subst. split; reflexivity.
  - destruct ((w <? 1) || (h <? 1)); [discriminate|].
    intros H. inversion H; subst. split; reflexivity.
Qed.

(** C1: within one draw the angle applied to the source and to the target
    is the one value that the single [uniform] call returned, and the flip
    applied to both is the one value of the single [choice] call; the
    generator advances by one word for the angle and one for the flip, so
    neither is sampled a second time. *)
Theorem shared_angle_and_flip src tgt cfg g L g' :
  process_image_pair_locals rotate_affine src tgt cfg g = Ok (L, g') ->
  ((0 < rotation_range cfg)%Q ->
     exists a,
       uniform (- rotation_range cfg) (rotation_range cfg) g = Ok (a, skipn 1 g) /\
       angle L = Some a /\
       rotated_source L = rotate_image rotate_affine src a (source_fill_color L) /\
       rotated_target L = rotate_image rotate_affine tgt a (target_fill_color L)) /\
  (is_flip cfg = true ->
     exists h,
       is_horizontal L = Some h /\
       base_source L = apply_random_flip (rotated_source L) h /\
       base_target L = apply_random_flip (rotated_target L) h) /\
  g' = skipn (words_drawn cfg) g.
Proof.
  intros H. apply locals_inv in H.
  destruct H as [Fsf Ftf Fes Fet Frot Fflip Fsc Fnz Fcs Fss Fst Fcss Fcts Fls Fts Fw Fh Flt Ftt Frng].
  split; [|split].
  - intros Hr. apply Qgtb_true in Hr. rewrite Hr in Frot. exact Frot.
  - intros Hf. rewrite Hf in Fflip. exact Fflip.
  - exact Frng.
Qed.

(** C2: the target crop offset is the source offset times the original
    target dimension, floor-divided by the original source dimension, on
    each axis; the crop that yields the returned target image is taken at
    the offset re-derived by that formula. *)
Theorem target_offset_rescaled src tgt cfg g fs ft g' :
  process_image_pair rotate_affine resample src tgt cfg g = Ok ((fs, ft), g') ->
  exists L,
    process_image_pair_locals rotate_affine src tgt cfg g = Ok (L, g') /\
    width src <> 0 /\ height src <> 0 /\
    left_target L = left_source L * width tgt / width src /\
    top_target L = top_source L * height tgt / height src /\
    Image_resize resample
      (crop_square (scaled_target L)
         (left_source L * width tgt / width src)
         (top_source L * height tgt / height src)
         (crop_target_size L))
      (output_size cfg) = Ok ft.
Proof.
  intros H. apply process_image_pair_inv in H. destruct H as (L & HL & _ & Hft).
  exists L. pose proof (locals_inv _ _ _ _ _ _ HL) as F.
  destruct F as [Fsf Ftf Fes Fet Frot Fflip Fsc Fnz Fcs Fss Fst Fcss Fcts Fls Fts Fw Fh Flt Ftt Frng].
  rewrite <- Flt, <- Ftt. auto 10.
Qed.

Lemma process_images_loop_sizes src tgt cfg s n :
  output_size cfg = (s, s) ->
  forall acc_s acc_t g As Bs g',
  Forall (fun img => width img = s /\ height img = s) acc_s ->
  Forall (fun img => width img = s /\ height img = s) acc_t ->
  List.length acc_s = List.length acc_t ->
  process_images_loop rotate_affine resample src tgt cfg n acc_s acc_t g = Ok ((As, Bs), g') ->
  Forall (fun img => width img = s /\ height img = s) As /\
  Forall (fun img => width img = s /\ height img = s) Bs /\
  List.length As = (List.length acc_s + n)%nat /\ List.length Bs = List.length As.
Proof.
  intros Hs. induction n as [|n IH]; intros acc_s acc_t g As Bs g' Fs Ft Hlen H.
  - simpl in H. apply ret_ok in H. destruct H as [H _]. inversion H; subst.
    repeat split; auto.
  - simpl in H. apply bind_ok in H. destruct H as ([a b] & g1 & Hp & H).
    pose proof (process_image_pair_inv _ _ _ _ _ _ _ Hp) as (L & _ & Ha & Hb).
    apply Image_resize_size in Ha, Hb. rewrite Hs in Ha, Hb.
    simpl in Ha, Hb.
    apply IH in H.
    + destruct H as (HA & HB & HlA & HlB).
      rewrite length_app in HlA. simpl in HlA.
      split; [exact HA|]. split; [exact HB|]. split; [lia|exact HlB].
    + apply Forall_app. split; [exact Fs|]. constructor; [exact Ha|constructor].
    + apply Forall_app. split; [exact Ft|]. constructor; [exact Hb|constructor].
    + rewrite !length_app. simpl. lia.
Qed.

(** C3: with the output size configured as the square [(s, s)], both images
    of every pair that [process_image_pair] returns are [s] wide and [s]
    high, and so is every element of the two lists of [process_images],
    which hold [num_copies] images each. *)
Theorem output_is_square src tgt cfg s :
  output_size cfg = (s, s) ->
  (forall g fs ft g',
     process_image_pair rotate_affine resample src tgt cfg g = Ok ((fs, ft), g') ->
     (width fs = s /\ height fs = s) /\ (width ft = s /\ height ft = s)) /\
  (forall num_copies g aug_sources aug_targets g',
     process_images rotate_affine resample src tgt num_copies cfg g
       = Ok ((aug_sources, aug_targets), g') ->
     Forall (fun img => width img = s /\ height img = s) aug_sources /\
     Forall (fun img => width img = s /\ height img = s) aug_targets /\
     List.length aug_sources = Z.to_nat num_copies /\
     List.length aug_targets = Z.to_nat num_copies).
Proof.
  intros Hs. split.
  - intros g fs ft g' H.
    apply process_image_pair_inv in H. destruct H as (L & _ & Ha & Hb).
    apply Image_resize_size in Ha, Hb. rewrite Hs in Ha, Hb. auto.
  - intros n g As Bs g' H. unfold process_images in H.
    apply (process_images_loop_sizes _ _ _ _ _ Hs) in H; auto.
    destruct H as (HA & HB & HlA & HlB). simpl in HlA. repeat split; auto. congruence.
Qed.



(** C9, as amended: a source image of width 0 or of height 0 never yields a
    pair; the call raises before any crop or resize. *)
Theorem zero_area_source_raises src tgt cfg g :
  width src = 0 \/ height src = 0 ->
  exists e,
    process_image_pair_locals rotate_affine src tgt cfg g = Raise e /\
    process_image_pair rotate_affine resample src tgt cfg g = Raise e.
Proof.
  intros Hz.
  destruct (process_image_pair_locals rotate_affine src tgt cfg g) as [[L g']|e] eqn:E.
  - apply locals_inv in E.
    destruct E as [_ _ _ _ _ _ _ _ _ _ _ _ _ _ _ Fw Fh _ _ _].
    destruct Hz; contradiction.
  - exists e. split; [reflexivity|].
    unfold process_image_pair, bind. rewrite E. reflexivity.
Qed.

Lemma Image_resize_same img :
  Image_resize resample img (width img, height img) = Ok img.
Proof. unfold Image_resize. rewrite !Z.eqb_refl. reflexivity. Qed.

(** C5, as amended: with rotation range 0, no flip, [min_scale = max_scale
    = 1], no long-side expansion and the output size set to the short side
    [s] of the source, the returned source image is the [s x s] crop of the
    source at the sampled offset, pixel for pixel, and the returned target
    is the resized crop of the target at the rescaled offset.  For a square
    source that crop is the whole image, its centre-square crop, and
    likewise for a square target. *)
Theorem noop_config_returns_sampled_square_crop src tgt cfg g fs ft g' :
  (rotation_range cfg == 0)%Q -> is_flip cfg = false ->
  (min_scale cfg == 1)%Q -> (max_scale cfg == 1)%Q ->
  expand_to_long_side cfg = false ->
  positive_size src ->
  output_size cfg = (Z.min (width src) (height src), Z.min (width src) (height src)) ->
  process_image_pair rotate_affine resample src tgt cfg g = Ok ((fs, ft), g') ->
  let s := Z.min (width src) (height src) in
  exists left top,
    0 <= left <= width src - s /\ 0 <= top <= height src - s /\
    fs = crop_square src left top s /\
    Image_resize resample
      (crop_square tgt (left * width tgt / width src) (top * height tgt / height src)
         (Z.min (width tgt) (height tgt))) (s, s) = Ok ft /\
    (width src = height src ->
       fs = center_square_crop src /\ same_image fs src /\
       (width tgt = height tgt ->
          Image_resize resample (center_square_crop tgt) (s, s) = Ok ft)).
Proof.
  intros Hrot Hflip Hmin Hmax Hexp Hsrc Hout H s.
  apply process_image_pair_inv in H. destruct H as (L & HL & Hfs & Hft).
  apply locals_inv in HL.
  destruct HL as [_ _ Fes Fet Frot Fflip Fsc Fnz Fcs Fss Fst Fcss Fcts Fls Fts Fw Fh Flt Ftt _].
  assert (Er : Qgtb (rotation_range cfg) 0 = false) by (apply Qgtb_false; lra).
  rewrite Er in Frot. rewrite Hflip in Fflip. rewrite Hexp in Fes, Fet.
  destruct Frot as (_ & Frs & Frt). destruct Fflip as (_ & Fbs & Fbt).
  assert (Ebs : base_source L = src) by congruence.
  assert (Ebt : base_target L = tgt) by congruence.
  destruct Fsc as (u & _ & _ & Esc).
  assert (Hsc1 : (scale L == 1)%Q).
  { rewrite Esc, Hmin, Hmax. ring. }
  assert (Hcs1 : (canvas_scale L == 1)%Q).
  { rewrite Fcs, Hsc1. reflexivity. }
  assert (Eg : Qgtb (canvas_scale L) 1 = false) by (apply Qgtb_false; lra).
  rewrite Eg in Fss, Fst. rewrite Ebs in Fss. rewrite Ebt in Fst.
  assert (Hint : forall m, int (inject_Z m * canvas_scale L) = m).
  { intros m. rewrite <- (int_inject_Z m) at 2. apply int_Qeq. rewrite Hcs1. ring. }
  rewrite Hint, Ebs in Fcss. rewrite Hint, Ebt in Fcts.
  rewrite Fss, Fcss in Fls, Fts.
  rewrite Fss, Fcss in Hfs. rewrite Fst, Fcts, Flt, Ftt, Hout in Hft.
  rewrite Hout in Hfs.
  destruct Hsrc as [Hw Hh].
  replace (Z.min (height src) (width src)) with s in * by (subst s; lia).
  replace (Z.min (height tgt) (width tgt)) with (Z.min (width tgt) (height tgt)) in * by lia.
  assert (Efs : fs = crop_square src (left_source L) (top_source L) s).
  { pose proof (Image_resize_same (crop_square src (left_source L) (top_source L) s)) as R.
    unfold crop_square in R at 2 3. cbn [crop width height] in R.
    replace (Z.max 0 (left_source L + s - left_source L)) with s in R by (subst s; lia).
    replace (Z.max 0 (top_source L + s - top_source L)) with s in R by (subst s; lia).
    fold s in Hfs. congruence. }
  exists (left_source L), (top_source L).
  fold s in Hft.
  split; [exact Fls|]. split; [exact Fts|]. split; [exact Efs|]. split; [exact Hft|].
  intros Hsq.
  assert (Hl0 : left_source L = 0) by (subst s; lia).
  assert (Ht0 : top_source L = 0) by (subst s; lia).
  assert (Ecs : forall img, width img = height img ->
            center_square_crop img = crop_square img 0 0 (Z.min (width img) (height img))).
  { intros img E. unfold center_square_crop, crop_square.
    replace (Z.min (width img) (height img)) with (width img) by lia.
    rewrite <- E, !Z.sub_diag. reflexivity. }
  split; [|split].
  - rewrite (Ecs src Hsq). fold s. rewrite Efs, Hl0, Ht0. reflexivity.
  - rewrite Efs, Hl0, Ht0. unfold same_image, crop_square. cbn [crop width height pixels].
    split; [subst s; lia|]. split; [subst s; lia|].
    intros x y Hx Hy. unfold inside. rewrite !Z.add_0_r.
    replace (0 <=? x) with true by (symmetry; apply Z.leb_le; lia).
    replace (x <? width src) with true by (symmetry; apply Z.ltb_lt; subst s; lia).
    replace (0 <=? y) with true by (symmetry; apply Z.leb_le; lia).
    replace (y <? height src) with true by (symmetry; apply Z.ltb_lt; subst s; lia).
    reflexivity.
  - intros Htsq. rewrite (Ecs tgt Htsq).
    rewrite Hl0, Ht0 in Hft. rewrite !Z.mul_0_l in Hft.
    rewrite !Z.div_0_l in Hft by assumption. exact Hft.
Qed.


(** *** Runs on non-empty images *)

Section PositiveRotation.

(** Pillow's expanded bounding box of a rotated non-empty image is non-empty. *)
Hypothesis rotate_affine_positive :
  forall img a c, positive_size img -> positive_size (rotate_affine img a c).

Lemma rotate_image_positive img a c :
  positive_size img -> positive_size (rotate_image rotate_affine img a c).
Proof.
  intros H. unfold rotate_image, Image_rotate.
  destruct (Qeq_bool (mod360 a) 0); [exact H|].
  destruct (Qeq_bool (mod360 a) 180); [exact H|].
  destruct (Qeq_bool (mod360 a) 90); [unfold positive_size in *; simpl; lia|].
  destruct (Qeq_bool (mod360 a) 270); [unfold positive_size in *; simpl; lia|].
  apply rotate_affine_positive, H.
Qed.

Lemma locals_total src tgt cfg g :
  positive_size src -> positive_size tgt ->
  (0 < min_scale cfg)%Q -> (min_scale cfg <= max_scale cfg)%Q ->
  exists L, process_image_pair_locals rotate_affine src tgt cfg g
            = Ok (L, skipn (words_drawn cfg) g) /\
            positive_size (base_source L) /\ (0 < canvas_scale L)%Q.
Proof.
  intros Hsrc Htgt Hmin Hmax.
  destruct (fill_color_total (source_is_edge_mode_fill cfg) (source_is_avg_color_fill cfg)
              src (proj1 Hsrc) (proj2 Hsrc)) as [sf Hsf].
  destruct (fill_color_total (target_is_edge_mode_fill cfg) (target_is_avg_color_fill cfg)
              tgt (proj1 Htgt) (proj2 Htgt)) as [tf Htf].
  unfold process_image_pair_locals, size, words_drawn.
  rewrite (bind_lift_eq _ _ _ _ Hsf), (bind_lift_eq _ _ _ _ Htf).
  set (es := if expand_to_long_side cfg then long_side_canvas src sf else src).
  set (et := if expand_to_long_side cfg then long_side_canvas tgt tf else tgt).
  replace (if expand_to_long_side cfg
           then (long_side_canvas src sf, long_side_canvas tgt tf)
           else (src, tgt)) with (es, et)
    by (subst es et; destruct (expand_to_long_side cfg); reflexivity).
  assert (Hes : positive_size es).
  { subst es. destruct (expand_to_long_side cfg); [apply long_side_canvas_positive|]; auto. }
  (* rotation block *)
  assert (Hrot : exists a rs rt,
    (if Qgtb (rotation_range cfg) 0 then
       angle <- uniform (- rotation_range cfg) (rotation_range cfg) ;;
       ret (Some angle, rotate_image rotate_affine src angle sf,
            rotate_image rotate_affine tgt angle tf)
     else ret (None, es, et)) g
    = Ok ((a, rs, rt), skipn (if Qgtb (rotation_range cfg) 0 then 1 else 0) g)
    /\ positive_size rs).
  { destruct (Qgtb (rotation_range cfg) 0).
    - destruct (uniform_total (- rotation_range cfg) (rotation_range cfg) g) as [a Ha].
      exists (Some a), (rotate_image rotate_affine src a sf),
             (rotate_image rotate_affine tgt a tf).
      split; [rewrite (bind_eq _ _ _ _ _ Ha); reflexivity|].
      apply rotate_image_positive, Hsrc.
    - exists None, es, et. split; [reflexivity|exact Hes]. }
  destruct Hrot as (a & rs & rt & Hrot & Hrs).
  rewrite (bind_eq _ _ _ _ _ Hrot). cbv beta iota.
  set (g1 := skipn (if Qgtb (rotation_range cfg) 0 then 1 else 0) g).
  (* flip block *)
  assert (Hflip : exists h bs bt,
    (if is_flip cfg then
       is_horizontal <- choice [true; false] ;;
       ret (Some is_horizontal, apply_random_flip rs is_horizontal,
            apply_random_flip rt is_horizontal)
     else ret (None, rs, rt)) g1
    = Ok ((h, bs, bt), skipn (if is_flip cfg then 1 else 0) g1)
    /\ positive_size bs).
  { destruct (is_flip cfg).
    - destruct (choice_bool_total g1) as [h Hh].
      exists (Some h), (apply_random_flip rs h), (apply_random_flip rt h).
      split; [rewrite (bind_eq _ _ _ _ _ Hh); reflexivity|].
      apply apply_random_flip_positive, Hrs.
    - exists None, rs, rt. split; [reflexivity|exact Hrs]. }
  destruct Hflip as (h & bs & bt & Hflip & Hbs).
  rewrite (bind_eq _ _ _ _ _ Hflip). cbv beta iota.
  set (g2 := skipn (if is_flip cfg then 1 else 0) g1).
  (* scale *)
  destruct (uniform_total (min_scale cfg) (max_scale cfg) g2) as [sc Hsc].
  rewrite (bind_eq _ _ _ _ _ Hsc).
  destruct (uniform_ok _ _ _ _ _ Hsc) as (_ & u & Hu0 & Hu1 & Esc).
  assert (Hscpos : (0 < sc)%Q).
  { rewrite Esc.
    assert ((0 <= (max_scale cfg - min_scale cfg) * u)%Q)
      by (apply Qmult_le_0_compat; lra).
    lra. }
  assert (Hcs : truediv 1 sc = Ok (1 / sc)%Q).
  { unfold truediv. destruct (Qeq_bool sc 0) eqn:E; [|reflexivity].
    apply Qeq_bool_iff in E. lra. }
  rewrite (bind_lift_eq _ _ _ _ Hcs).
  assert (Hcspos : (0 < 1 / sc)%Q).
  { unfold Qdiv. rewrite Qmult_1_l. apply Qinv_lt_0_compat. exact Hscpos. }
  pose proof (crop_size_fits bs (1 / sc) sf (proj1 Hbs) (proj2 Hbs) Hcspos) as Hfit.
  cbv zeta in Hfit.
  set (ss := if Qgtb (1 / sc) 1 then grown_canvas bs (1 / sc) sf else bs) in *.
  set (st := if Qgtb (1 / sc) 1 then grown_canvas bt (1 / sc) tf else bt).
  replace (if Qgtb (1 / sc) 1
           then (grown_canvas bs (1 / sc) sf, grown_canvas bt (1 / sc) tf)
           else (bs, bt)) with (ss, st)
    by (subst ss st; destruct (Qgtb (1 / sc) 1); reflexivity).
  cbv beta iota.
  destruct Hfit as (Hc0 & Hcw & Hch).
  set (crop := int (inject_Z (Z.min (height bs) (width bs)) * (1 / sc))) in *.
  destruct (randint_total 0 (width ss - crop) (skipn 1 g2)) as [ls Hls]; [lia|].
  rewrite (bind_eq _ _ _ _ _ Hls).
  destruct (randint_total 0 (height ss - crop) (skipn 1 (skipn 1 g2))) as [ts Hts]; [lia|].
  rewrite (bind_eq _ _ _ _ _ Hts).
  assert (Hlt : floordiv (ls * width tgt) (width src) = Ok (ls * width tgt / width src)).
  { unfold floordiv. destruct (width src =? 0) eqn:E; [|reflexivity].
    apply Z.eqb_eq in E. destruct Hsrc. lia. }
  assert (Htt : floordiv (ts * height tgt) (height src) = Ok (ts * height tgt / height src)).
  { unfold floordiv. destruct (height src =? 0) eqn:E; [|reflexivity].
    apply Z.eqb_eq in E. destruct Hsrc. lia. }
  rewrite (bind_lift_eq _ _ _ _ Hlt), (bind_lift_eq _ _ _ _ Htt).
  assert (Hg : skipn 1 (skipn 1 (skipn 1 g2))
               = skipn ((if Qgtb (rotation_range cfg) 0 then 1 else 0)
                        + (if is_flip cfg then 1 else 0) + 3) g).
  { subst g2 g1. rewrite !skipn_skipn. f_equal. lia. }
  rewrite <- Hg. unfold ret. eexists. split; [reflexivity|].
  cbn [base_source canvas_scale]. split; assumption.
Qed.


(** C10: for non-empty source and target images and [0 < min_scale <=
    max_scale], both offset draws succeed on every generator state, the crop
    size is at most the width and the height of the scaled source canvas in
    either branch of the canvas growth, and the sampled window lies inside
    that canvas. *)
Theorem source_crop_window_fits src tgt cfg g :
  positive_size src -> positive_size tgt ->
  (0 < min_scale cfg)%Q -> (min_scale cfg <= max_scale cfg)%Q ->
  exists L g',
    process_image_pair_locals rotate_affine src tgt cfg g = Ok (L, g') /\
    0 <= crop_source_size L /\
    crop_source_size L <= width (scaled_source L) /\
    crop_source_size L <= height (scaled_source L) /\
    0 <= left_source L /\
    left_source L + crop_source_size L <= width (scaled_source L) /\
    0 <= top_source L /\
    top_source L + crop_source_size L <= height (scaled_source L).
Proof.
  intros Hsrc Htgt Hmin Hmax.
  destruct (locals_total src tgt cfg g Hsrc Htgt Hmin Hmax) as (L & HL & Hbs & Hcs).
  exists L, (skipn (words_drawn cfg) g). split; [exact HL|].
  apply locals_inv in HL.
  destruct HL as [_ _ _ _ _ _ _ _ _ Fss _ Fcss _ Fls Fts _ _ _ _ _].
  pose proof (crop_size_fits (base_source L) (canvas_scale L) (source_fill_color L)
                (proj1 Hbs) (proj2 Hbs) Hcs) as Hfit.
  cbv zeta in Hfit. rewrite <- Fss, <- Fcss in Hfit.
  destruct Hfit as (H0 & Hw & Hh). lia.
Qed.

End PositiveRotation.

End AugmenterFacts.

(** ** lineart_util.py and convert_source_to_sketch.py *)

Lemma np_round_int (x : Q) : exists z, np_round x = inject_Z z /\ Qfloor x <= z.
Proof.
  unfold np_round.
  destruct (Qgtb (1 # 2) (x - inject_Z (Qfloor x))); [exists (Qfloor x); split; [reflexivity|lia]|].
  destruct (Qgtb (x - inject_Z (Qfloor x)) (1 # 2));
    [exists (Qfloor x + 1); split; [reflexivity|lia]|].
  destruct (Z.even (Qfloor x)).
  - exists (Qfloor x). split; [reflexivity|lia].
  - exists (Qfloor x + 1). split; [reflexivity|lia].
Qed.

Lemma int_np_round_lower (n : Z) (x : Q) : (inject_Z n <= x)%Q -> n <= int (np_round x).
Proof.
  intros H. destruct (np_round_int x) as (z & -> & Hz).
  rewrite int_inject_Z. apply Qfloor_resp_le in H. rewrite Qfloor_Z in H. lia.
Qed.

Lemma pad64_nonneg (x : Z) : 0 <= pad64 x.
Proof.
  unfold pad64. set (n := Qceiling (inject_Z x / 64)).
  assert (E : (inject_Z n * 64 - inject_Z x == inject_Z (n * 64 - x))%Q).
  { unfold Z.sub. rewrite inject_Z_plus, inject_Z_mult, inject_Z_opp. reflexivity. }
  rewrite (int_Qeq _ _ E), int_inject_Z.
  pose proof (Qle_ceiling (inject_Z x / 64)) as H. fold n in H.
  assert (H' : (inject_Z x <= inject_Z n * 64)%Q).
  { apply (Qmult_le_compat_r _ _ 64) in H; [|discriminate].
    rewrite (Qmult_comm (inject_Z x / 64) 64), Qmult_div_r in H by discriminate.
    exact H. }
  change 64%Q with (inject_Z 64) in H'.
  rewrite <- inject_Z_mult, <- Zle_Qle in H'. lia.
Qed.

Lemma borderInterpolate_range p len : 1 <= len -> 0 <= borderInterpolate p len < len.
Proof.
  intros H. unfold borderInterpolate.
  destruct (len <=? 1) eqn:E; [apply Z.leb_le in E; lia|].
  apply Z.leb_gt in E.
  pose proof (Z.mod_pos_bound p (2 * (len - 1)) ltac:(lia)) as Hm.
  destruct (p mod (2 * (len - 1)) <? len) eqn:E2.
  - apply Z.ltb_lt in E2. lia.
  - apply Z.ltb_ge in E2. lia.
Qed.

Lemma clip_range (x : Q) : (0 <= clip 0 255 x)%Q /\ (clip 0 255 x <= 255)%Q.
Proof.
  unfold clip. split.
  - apply Q.min_glb; [apply Q.le_max_r|lra].
  - apply Q.le_min_r.
Qed.

Lemma dog_of_range g1 g2 y x : 0 <= at_ (dog_of g1 g2) y x <= 255.
Proof.
  unfold dog_of. cbn [at_].
  destruct (at_ g1 y x) as [[r1 gg1] b1], (at_ g2 y x) as [[r2 gg2] b2].
  set (v := (255 - Qmin (Qmin (r2 - r1) (gg2 - gg1)) (b2 - b1))%Q).
  destruct (clip_range v) as [H0 H1].
  pose proof (int_mono _ _ H0 H1) as [Ha Hb].
  change (int 255) with 255 in Hb. lia.
Qed.

Lemma xdog_threshold_spec thr d :
  0 <= d <= 255 ->
  xdog_threshold thr d = if thr <? (2 * (255 - d)) mod 256 then (255, 255, 255) else (0, 0, 0).
Proof.
  intros Hd. unfold xdog_threshold, uint8.
  rewrite (Z.mod_small (255 - d)) by lia. reflexivity.
Qed.

Lemma range_length (n : nat) : List.length (range (Z.of_nat n)) = n.
Proof. unfold range. rewrite length_map, length_seq, Nat2Z.id. reflexivity. Qed.

Lemma Qsum_weighted_const (F : Z -> Q) (v : Q) :
  (forall j, F j == v)%Q ->
  forall (w : list Q) (js : list Z), List.length js = List.length w ->
  (Qsum (map (fun '(j, wj) => wj * F j) (combine js w)) == v * Qsum w)%Q.
Proof.
  intros HF. induction w as [|wj w IH]; intros js Hlen.
  - destruct js; simpl; ring.
  - destruct js as [|j js]; [discriminate|]. simpl in Hlen. injection Hlen as Hlen.
    simpl. rewrite (IH js Hlen), (HF j). ring.
Qed.

Lemma filter_line_const (w : list Q) (f : Z -> Q) (len i : Z) (v : Q) :
  1 <= len -> (forall k, 0 <= k < len -> (f k == v)%Q) -> (Qsum w == 1)%Q ->
  (filter_line w f len i == v)%Q.
Proof.
  intros Hlen Hf Hw. unfold filter_line.
  rewrite (Qsum_weighted_const
             (fun j => f (borderInterpolate (i + j - (Z.of_nat (List.length w) - 1) / 2) len)) v).
  - rewrite Hw. ring.
  - intros j. apply Hf, borderInterpolate_range, Hlen.
  - apply range_length.
Qed.

Lemma filter_rows_solid w a c :
  (Qsum w == 1)%Q -> solid_farray a c -> solid_farray (filter_rows w a) c.
Proof.
  intros Hw (Hr & Hc & Ha). split; [exact Hr|]. split; [exact Hc|].
  intros y x Hy Hx. unfold filter_rows. cbn [at_ rows cols chan_r chan_g chan_b fst snd].
  repeat split; apply filter_line_const; try lia; try exact Hw;
    intros k Hk; apply (Ha y k Hy Hk).
Qed.

Lemma filter_cols_solid w a c :
  (Qsum w == 1)%Q -> solid_farray a c -> solid_farray (filter_cols w a) c.
Proof.
  intros Hw (Hr & Hc & Ha). split; [exact Hr|]. split; [exact Hc|].
  intros y x Hy Hx. unfold filter_cols. cbn [at_ rows cols chan_r chan_g chan_b fst snd].
  repeat split; apply filter_line_const; try lia; try exact Hw;
    intros k Hk; apply (Ha k x Hk Hx).
Qed.

Lemma astype_float32_solid a c : solid_array a c -> solid_farray (astype_float32 a) c.
Proof.
  intros (Hr & Hc & Ha). split; [exact Hr|]. split; [exact Hc|].
  intros y x Hy Hx. unfold astype_float32. cbn [at_ rows cols].
  simpl in Hy, Hx. rewrite (Ha y x Hy Hx). destruct c as [[r g] b].
  unfold chan_r, chan_g, chan_b, red, green, blue. simpl. repeat split; reflexivity.
Qed.

Lemma Qmin_zero x y : (x == 0)%Q -> (y == 0)%Q -> (Qmin x y == 0)%Q.
Proof.
  intros Hx Hy. destruct (Q.min_spec x y) as [[_ E]|[_ E]]; rewrite E; assumption.
Qed.

Lemma dog_of_solid g1 g2 c y x :
  solid_farray g1 c -> solid_farray g2 c ->
  0 <= y < rows g1 -> 0 <= x < cols g1 ->
  0 <= y < rows g2 -> 0 <= x < cols g2 ->
  at_ (dog_of g1 g2) y x = 255.
Proof.
  intros (_ & _ & H1) (_ & _ & H2) Hy1 Hx1 Hy2 Hx2.
  specialize (H1 y x Hy1 Hx1). specialize (H2 y x Hy2 Hx2).
  unfold dog_of. cbn [at_].
  destruct (at_ g1 y x) as [[r1 gg1] b1], (at_ g2 y x) as [[r2 gg2] b2].
  unfold chan_r, chan_g, chan_b in H1, H2. simpl in H1, H2.
  destruct H1 as (Hr1 & Hg1 & Hb1), H2 as (Hr2 & Hg2 & Hb2).
  assert (Hm : (Qmin (Qmin (r2 - r1) (gg2 - gg1)) (b2 - b1) == 0)%Q).
  { apply Qmin_zero; [apply Qmin_zero|].
    - rewrite Hr1, Hr2. ring.
    - rewrite Hg1, Hg2. ring.
    - rewrite Hb1, Hb2. ring. }
  set (m := Qmin (Qmin (r2 - r1) (gg2 - gg1)) (b2 - b1)) in *.
  assert (Hv : (clip 0 255 (255 - m) == 255)%Q).
  { unfold clip. rewrite Q.max_l by lra. rewrite Q.min_l by lra. rewrite Hm. ring. }
  rewrite (int_Qeq _ _ Hv). reflexivity.
Qed.

Section SketchFacts.

Variable resample : Image -> Z -> Z -> Z -> Z -> color.
Variable cv2_resize_grid : ndarray color -> Z -> Z -> interpolation -> Z -> Z -> color.
Variable gaussian_kernel : Q -> list Q.



Lemma resize_image_with_pad_total a res :
  1 <= res -> 0 < rows a -> 0 < cols a ->
  exists H_target W_target i,
    resize_image_with_pad cv2_resize_grid a res
    = Ok (np_pad_edge (mkArray H_target W_target (cv2_resize_grid a W_target H_target i))
            (pad64 H_target) (pad64 W_target), (H_target, W_target)) /\
    1 <= H_target /\ 1 <= W_target.
Proof.
  intros Hres Hr Hc.
  unfold resize_image_with_pad, HWC3, truediv.
  set (m := Z.min (rows a) (cols a)).
  assert (Hm : 0 < m) by (subst m; lia).
  assert (Hmq : (0 < inject_Z m)%Q) by (rewrite <- (Zlt_Qlt 0); exact Hm).
  destruct (Qeq_bool (inject_Z m) 0) eqn:E; [apply Qeq_bool_iff in E; lra|]. clear E.
  set (k := (inject_Z res / inject_Z m)%Q).
  assert (Hk : forall n, m <= n -> (inject_Z 1 <= inject_Z n * k)%Q).
  { intros n Hn. subst k. unfold Qdiv. rewrite Qmult_assoc.
    apply Qle_shift_div_l; [exact Hmq|].
    rewrite <- !inject_Z_mult, <- Zle_Qle. nia. }
  pose proof (int_np_round_lower 1 _ (Hk (rows a) ltac:(subst m; lia))) as HH.
  pose proof (int_np_round_lower 1 _ (Hk (cols a) ltac:(subst m; lia))) as HW.
  set (Ht := int (np_round (inject_Z (rows a) * k))) in *.
  set (Wt := int (np_round (inject_Z (cols a) * k))) in *.
  unfold cv2_resize.
  destruct ((Wt <? 1) || (Ht <? 1)) eqn:E.
  { apply orb_true_iff in E. destruct E as [E|E]; apply Z.ltb_lt in E; lia. }
  exists Ht, Wt, (if Qgtb k 1 then INTER_CUBIC else INTER_AREA).
  split; [reflexivity|lia].
Qed.

(** On a non-empty image the conversion returns an image. *)
Lemma convert_pil_to_sketch_total image :
  positive_size image ->
  exists out, convert_pil_to_sketch resample cv2_resize_grid gaussian_kernel image = Ok out.
Proof.
  intros [Hw Hh].
  destruct (resize_image_with_pad_total (np_array image) 2048 ltac:(lia) Hh Hw)
    as (Ht & Wt & i & Hpad & _ & _).
  unfold convert_pil_to_sketch, size, scribble_xdog. rewrite Hpad.
  unfold Image_resize.
  match goal with |- context [if ?b then Ok ?R else _] => destruct b; [eauto|] end.
  destruct ((width image <? 1) || (height image <? 1)) eqn:E.
  { apply orb_true_iff in E. destruct E as [E|E]; apply Z.ltb_lt in E; lia. }
  eauto.
Qed.

(** Within eight levels of the top of the range no [dog] value passes the
    threshold 16. *)
Lemma xdog_threshold_margin d :
  247 <= d <= 255 -> xdog_threshold 16 d = (0, 0, 0).
Proof.
  intros Hd. rewrite xdog_threshold_spec by lia.
  rewrite (Z.mod_small (2 * (255 - d))) by lia.
  destruct (16 <? 2 * (255 - d)) eqn:E; [apply Z.ltb_lt in E; lia|reflexivity].
Qed.

Section SolidInput.

(** The interpolating kernels reproduce a solid colour, and the Gaussian
    weights sum to one. *)
Hypothesis cv2_resize_solid :
  forall a w h i c, solid_array a c ->
  forall y x, 0 <= y < h -> 0 <= x < w -> cv2_resize_grid a w h i y x = c.

Hypothesis gaussian_kernel_normalised :
  forall sigma, (Qsum (gaussian_kernel sigma) == 1)%Q.

Hypothesis resample_solid :
  forall img w h c, solid_image img c ->
  forall x y, 0 <= x < w -> 0 <= y < h -> resample img w h x y = c.

Lemma GaussianBlur_solid a sigma c :
  solid_farray a c -> solid_farray (GaussianBlur gaussian_kernel a sigma) c.
Proof.
  intros H. unfold GaussianBlur.
  apply filter_cols_solid, filter_rows_solid; auto.
Qed.

Lemma resize_image_with_pad_solid a res c :
  1 <= res -> solid_array a c ->
  exists padded H_target W_target,
    resize_image_with_pad cv2_resize_grid a res = Ok (padded, (H_target, W_target)) /\
    solid_array padded c /\
    1 <= H_target <= rows padded /\ 1 <= W_target <= cols padded.
Proof.
  intros Hres Ha.
  destruct (resize_image_with_pad_total a res Hres (proj1 Ha) (proj1 (proj2 Ha)))
    as (Ht & Wt & i & Hpad & HH & HW).
  pose proof (pad64_nonneg Ht) as HpH. pose proof (pad64_nonneg Wt) as HpW.
  eexists. exists Ht, Wt. split; [exact Hpad|].
  unfold np_pad_edge, solid_array. cbn [rows cols at_].
  split; [|lia]. split; [lia|]. split; [lia|].
  intros y x Hy Hx.
  apply (cv2_resize_solid a Wt Ht i c); [exact Ha|lia|lia].
Qed.

(** C8: for a solid-colour input the difference-of-Gaussians response is
    zero at every pixel ([dog] is 255 everywhere), no pixel passes the
    threshold, and the sketch returned has the size of the input and is
    white at every pixel. *)
Theorem solid_input_gives_white_sketch image c :
  solid_image image c ->
  exists out,
    convert_pil_to_sketch resample cv2_resize_grid gaussian_kernel image = Ok out /\
    size out = size image /\
    solid_image out (255, 255, 255) /\
    exists dog sz,
      xdog_dog cv2_resize_grid gaussian_kernel (np_array image) 2048 = Ok (dog, sz) /\
      forall y x, 0 <= y < rows dog -> 0 <= x < cols dog -> at_ dog y x = 255.
Proof.
  intros (Hw & Hh & Himg).
  assert (Harr : solid_array (np_array image) c).
  { split; [exact Hh|]. split; [exact Hw|]. intros y x Hy Hx. apply Himg; assumption. }
  destruct (resize_image_with_pad_solid _ 2048 c ltac:(lia) Harr)
    as (padded & Ht & Wt & Hpad & Hsolid & HHt & HWt).
  pose proof (GaussianBlur_solid _ (1 # 2) _ (astype_float32_solid _ _ Hsolid)) as Hg1.
  pose proof (GaussianBlur_solid _ 5 _ (astype_float32_solid _ _ Hsolid)) as Hg2.
  set (g1 := GaussianBlur gaussian_kernel (astype_float32 padded) (1 # 2)) in *.
  set (g2 := GaussianBlur gaussian_kernel (astype_float32 padded) 5) in *.
  assert (Hdog : forall y x, 0 <= y < rows padded -> 0 <= x < cols padded ->
                 at_ (dog_of g1 g2) y x = 255).
  { intros y x Hy Hx. apply (dog_of_solid g1 g2 c); assumption. }
  set (R := Image_fromarray (remove_pad Ht Wt
              (mkArray (rows padded) (cols padded)
                 (fun y x => xdog_threshold 16 (at_ (dog_of g1 g2) y x))))).
  assert (ER : scribble_xdog cv2_resize_grid gaussian_kernel (np_array image) 2048 16 = Ok R).
  { unfold scribble_xdog. rewrite Hpad. reflexivity. }
  assert (HR : solid_image R (0, 0, 0)).
  { subst R. unfold solid_image, Image_fromarray, remove_pad. cbn [width height pixels rows cols at_].
    split; [lia|]. split; [lia|].
    intros x y Hx Hy. rewrite Hdog by lia. reflexivity. }
  assert (Hres : exists P, Image_resize resample R (width image, height image) = Ok P /\
                           size P = size image /\ solid_image P (0, 0, 0)).
  { unfold Image_resize.
    destruct ((width image =? width R) && (height image =? height R)) eqn:E.
    - apply andb_true_iff in E. destruct E as [E1 E2]. apply Z.eqb_eq in E1, E2.
      exists R. split; [reflexivity|]. split; [unfold size; congruence|exact HR].
    - destruct ((width image <? 1) || (height image <? 1)) eqn:E'.
      { apply orb_true_iff in E'. destruct E' as [E'|E']; apply Z.ltb_lt in E'; lia. }
      eexists. split; [reflexivity|]. split; [reflexivity|].
      split; [exact Hw|]. split; [exact Hh|].
      intros x y Hx Hy. cbn [pixels]. apply (resample_solid R _ _ _ HR); assumption. }
  destruct Hres as (P & HP & HsP & HsolP).
  exists (Image_fromarray (invert_uint8 (cvtColor_RGB2BGR (np_array P)))).
  split; [|split; [|split]].
  - unfold convert_pil_to_sketch, size. rewrite ER, HP. reflexivity.
  - unfold size in *. cbn [Image_fromarray invert_uint8 cvtColor_RGB2BGR np_array width height rows cols].
    exact HsP.
  - destruct HsolP as (HPw & HPh & HPpix).
    unfold solid_image. cbn [Image_fromarray invert_uint8 cvtColor_RGB2BGR np_array width height rows cols pixels at_].
    split; [exact HPw|]. split; [exact HPh|].
    intros x y Hx Hy. rewrite (HPpix x y Hx Hy). reflexivity.
  - exists (dog_of g1 g2), (Ht, Wt). split.
    + unfold xdog_dog. rewrite Hpad. reflexivity.
    + intros y x Hy Hx. apply Hdog; assumption.
Qed.

End SolidInput.

End SketchFacts.

(** ** Worked examples *)

(** The example kernels meet the contracts assumed of Pillow and OpenCV. *)
Lemma blank_rotate_positive img a c :
  positive_size img -> positive_size (blank_rotate img a c).
Proof. unfold positive_size, blank_rotate. simpl. lia. Qed.

Lemma nearest_index n m k : 0 < n -> 0 < m -> 0 <= k < m -> 0 <= k * n / m < n.
Proof.
  intros Hn Hm Hk. split.
  - apply Z.div_pos; nia.
  - apply Z.div_lt_upper_bound; nia.
Qed.

Lemma nearest_cv2_solid a w h i c :
  solid_array a c -> forall y x, 0 <= y < h -> 0 <= x < w -> nearest_cv2 a w h i y x = c.
Proof.
  intros (Hr & Hc & Ha) y x Hy Hx. unfold nearest_cv2.
  apply Ha; apply nearest_index; lia.
Qed.

Lemma nearest_resample_solid img w h c :
  solid_image img c -> forall x y, 0 <= x < w -> 0 <= y < h -> nearest_resample img w h x y = c.
Proof.
  intros (Hw & Hh & Ha) x y Hx Hy. unfold nearest_resample.
  apply Ha; apply nearest_index; lia.
Qed.

Lemma tent_kernel_normalised sigma : (Qsum (tent_kernel sigma) == 1)%Q.
Proof. reflexivity. Qed.

Lemma teal3x2_solid : solid_image teal3x2 (10, 20, 30).
Proof. unfold solid_image, teal3x2. simpl. repeat split; lia. Qed.

(** C4: on a 4 x 2 pair with long-side expansion on and rotation range 40,
    the long-side block builds the 4 x 4 canvases, and the rotation block
    then rotates the raw 4 x 2 inputs: the rotated images are 4 x 2 and hold
    the input pixels, where a rotation of the canvases by the same angle
    is 4 x 4. *)
Theorem rotation_discards_long_side_canvas :
  exists L g' a,
    process_image_pair_locals blank_rotate wide4x2 wide4x2 expand_rotate_config
      zero_angle_tape = Ok (L, g') /\
    angle L = Some a /\
    size (expanded_source L) = (4, 4) /\
    size (expanded_target L) = (4, 4) /\
    size (rotate_image blank_rotate (expanded_source L) a (source_fill_color L)) = (4, 4) /\
    rotated_source L = rotate_image blank_rotate wide4x2 a (source_fill_color L) /\
    size (rotated_source L) = (4, 2) /\
    size (rotated_target L) = (4, 2) /\
    getdata (rotated_source L) = getdata wide4x2.
Proof.
  destruct (process_image_pair_locals blank_rotate wide4x2 wide4x2 expand_rotate_config
              zero_angle_tape) as [[L g']|e] eqn:E; [|vm_compute in E; discriminate].
  pose proof (locals_inv _ _ _ _ _ _ _ E) as F.
  destruct F as [_ _ _ _ Frot _ _ _ _ _ _ _ _ _ _ _ _ _ _ _].
  change (Qgtb (rotation_range expand_rotate_config) 0) with true in Frot.
  destruct Frot as (a & Ha & Hang & Hrs & Hrt).
  exists L, g', a. split; [reflexivity|]. split; [exact Hang|].
  vm_compute in Ha. injection Ha as <-.
  vm_compute in E. injection E as <- <-.
  repeat split; reflexivity.
Qed.

(** A 4 x 2 source and an 8 x 4 target under rotation and flip: one angle,
    one flip, five words read. *)
Lemma shared_angle_and_flip_witness :
  (0 < rotation_range flip_rotate_config)%Q /\ is_flip flip_rotate_config = true /\
  exists L g' a h,
    process_image_pair_locals blank_rotate wide4x2 wide8x4 flip_rotate_config
      zero_angle_tape = Ok (L, g') /\
    angle L = Some a /\
    rotated_source L = rotate_image blank_rotate wide4x2 a (source_fill_color L) /\
    rotated_target L = rotate_image blank_rotate wide8x4 a (target_fill_color L) /\
    is_horizontal L = Some h /\
    base_source L = apply_random_flip (rotated_source L) h /\
    base_target L = apply_random_flip (rotated_target L) h /\
    g' = [].
Proof.
  split; [reflexivity|]. split; [reflexivity|].
  destruct (process_image_pair_locals blank_rotate wide4x2 wide8x4 flip_rotate_config
              zero_angle_tape) as [[L g']|e] eqn:E; [|vm_compute in E; discriminate].
  destruct (shared_angle_and_flip blank_rotate wide4x2 wide8x4 flip_rotate_config
              zero_angle_tape L g' E) as (Hrot & Hflip & Hg).
  destruct (Hrot eq_refl) as (a & _ & Ha & Hrs & Hrt).
  destruct (Hflip eq_refl) as (h & Hh & Hbs & Hbt).
  exists L, g', a, h. repeat split; assumption.
Defined.

(** A 4 x 2 source and an 8 x 4 target: the target offset is twice the
    source offset on both axes. *)
Lemma target_offset_rescaled_witness :
  exists fs ft g' L,
    process_image_pair blank_rotate nearest_resample wide4x2 wide8x4 (plain_config 2)
      [0; 2; 0]%N = Ok ((fs, ft), g') /\
    process_image_pair_locals blank_rotate wide4x2 wide8x4 (plain_config 2) [0; 2; 0]%N
      = Ok (L, g') /\
    left_target L = left_source L * 8 / 4 /\ top_target L = top_source L * 4 / 2.
Proof.
  destruct (process_image_pair blank_rotate nearest_resample wide4x2 wide8x4 (plain_config 2)
              [0; 2; 0]%N) as [[[fs ft] g']|e] eqn:E; [|vm_compute in E; discriminate].
  destruct (target_offset_rescaled blank_rotate nearest_resample wide4x2 wide8x4
              (plain_config 2) [0; 2; 0]%N fs ft g' E)
    as (L & HL & _ & _ & Hl & Ht & _).
  exists fs, ft, g', L. repeat split; assumption.
Defined.

(** Output size 2: both returned images are 2 x 2. *)
Lemma output_is_square_witness :
  output_size (plain_config 2) = (2, 2) /\
  exists fs ft g',
    process_image_pair blank_rotate nearest_resample wide4x2 wide8x4 (plain_config 2)
      [0; 2; 0]%N = Ok ((fs, ft), g') /\
    (width fs = 2 /\ height fs = 2) /\ (width ft = 2 /\ height ft = 2).
Proof.
  split; [reflexivity|].
  destruct (process_image_pair blank_rotate nearest_resample wide4x2 wide8x4 (plain_config 2)
              [0; 2; 0]%N) as [[[fs ft] g']|e] eqn:E; [|vm_compute in E; discriminate].
  exists fs, ft, g'. split; [reflexivity|].
  exact (proj1 (output_is_square blank_rotate nearest_resample wide4x2 wide8x4
                  (plain_config 2) 2 eq_refl) [0; 2; 0]%N fs ft g' E).
Defined.


(** An empty source image: the call raises. *)
Lemma zero_area_source_raises_witness :
  (width empty_image = 0 \/ height empty_image = 0) /\
  exists e,
    process_image_pair_locals blank_rotate empty_image wide4x2 (plain_config 2) [] = Raise e /\
    process_image_pair blank_rotate nearest_resample empty_image wide4x2 (plain_config 2) []
      = Raise e.
Proof.
  split; [left; reflexivity|].
  exact (zero_area_source_raises blank_rotate nearest_resample empty_image wide4x2
           (plain_config 2) [] (or_introl eq_refl)).
Defined.

(** C9 as stated fails: an empty target image with a valid source is not
    rejected, a pair of 2 x 2 images is returned. *)
Lemma zero_area_target_returns_pair :
  width empty_image = 0 /\ height empty_image = 0 /\
  exists fs ft g',
    process_image_pair blank_rotate nearest_resample square2 empty_image (plain_config 2) []
      = Ok ((fs, ft), g') /\
    size fs = (2, 2) /\ size ft = (2, 2).
Proof.
  split; [reflexivity|]. split; [reflexivity|].
  destruct (process_image_pair blank_rotate nearest_resample square2 empty_image
              (plain_config 2) []) as [[[fs ft] g']|e] eqn:E; [|vm_compute in E; discriminate].
  exists fs, ft, g'. split; [reflexivity|].
  vm_compute in E. injection E as <- <- <-. split; reflexivity.
Qed.

(** C5 as stated fails: on a 3 x 1 image with the offset draw 0 the no-op
    configuration returns the left pixel, and the centre-square crop is the
    middle pixel. *)
Lemma noop_config_not_center_crop :
  exists fs ft g',
    process_image_pair blank_rotate nearest_resample strip3 strip3 (plain_config 1)
      [0; 0; 0]%N = Ok ((fs, ft), g') /\
    getdata fs = [(0, 0, 0)] /\
    getdata (center_square_crop strip3) = [(100, 0, 0)] /\
    ~ same_image fs (center_square_crop strip3).
Proof.
  destruct (process_image_pair blank_rotate nearest_resample strip3 strip3 (plain_config 1)
              [0; 0; 0]%N) as [[[fs ft] g']|e] eqn:E; [|vm_compute in E; discriminate].
  exists fs, ft, g'. split; [reflexivity|].
  vm_compute in E. injection E as <- <- <-.
  split; [reflexivity|]. split; [reflexivity|].
  intros (_ & _ & H). specialize (H 0 0 ltac:(simpl; lia) ltac:(simpl; lia)).
  vm_compute in H. discriminate.
Qed.

(** The no-op configuration on a 4 x 2 source and an 8 x 4 target. *)
Lemma noop_config_returns_sampled_square_crop_witness :
  exists fs ft g' left top,
    process_image_pair blank_rotate nearest_resample wide4x2 wide8x4 (plain_config 2)
      [0; 2; 0]%N = Ok ((fs, ft), g') /\
    0 <= left <= 2 /\ 0 <= top <= 0 /\
    fs = crop_square wide4x2 left top 2 /\
    Image_resize nearest_resample
      (crop_square wide8x4 (left * 8 / 4) (top * 4 / 2) 4) (2, 2) = Ok ft.
Proof.
  destruct (process_image_pair blank_rotate nearest_resample wide4x2 wide8x4 (plain_config 2)
              [0; 2; 0]%N) as [[[fs ft] g']|e] eqn:E; [|vm_compute in E; discriminate].
  destruct (noop_config_returns_sampled_square_crop blank_rotate nearest_resample
              wide4x2 wide8x4 (plain_config 2) [0; 2; 0]%N fs ft g')
    as (left & top & Hl & Ht & Hfs & Hft & _).
  - reflexivity.
  - reflexivity.
  - reflexivity.
  - reflexivity.
  - reflexivity.
  - unfold positive_size. simpl. lia.
  - reflexivity.
  - exact E.
  - exists fs, ft, g', left, top. repeat split; try assumption; apply Hl || apply Ht.
Defined.

(** The crop window of a run under rotation and flip. *)
Lemma source_crop_window_fits_witness :
  exists L g',
    process_image_pair_locals blank_rotate wide4x2 wide8x4 flip_rotate_config
      zero_angle_tape = Ok (L, g') /\
    0 <= crop_source_size L /\
    crop_source_size L <= width (scaled_source L) /\
    crop_source_size L <= height (scaled_source L) /\
    0 <= left_source L /\
    left_source L + crop_source_size L <= width (scaled_source L) /\
    0 <= top_source L /\
    top_source L + crop_source_size L <= height (scaled_source L).
Proof.
  apply (source_crop_window_fits blank_rotate blank_rotate_positive wide4x2 wide8x4
           flip_rotate_config zero_angle_tape).
  - unfold positive_size. simpl. lia.
  - unfold positive_size. simpl. lia.
  - reflexivity.
  - discriminate.
Defined.



(** The sketch of a solid 3 x 2 image is white. *)
Lemma solid_input_gives_white_sketch_witness :
  solid_image teal3x2 (10, 20, 30) /\
  exists out,
    convert_pil_to_sketch nearest_resample nearest_cv2 tent_kernel teal3x2 = Ok out /\
    size out = (3, 2) /\ solid_image out (255, 255, 255).
Proof.
  split; [exact teal3x2_solid|].
  destruct (solid_input_gives_white_sketch nearest_resample nearest_cv2 tent_kernel
              nearest_cv2_solid tent_kernel_normalised nearest_resample_solid
              teal3x2 (10, 20, 30) teal3x2_solid) as (out & Hout & Hsz & Hwhite & _).
  exists out. split; [exact Hout|]. split; [exact Hsz|exact Hwhite].
Defined.

(** * Further properties of the code *)

(** ** lineart_util.py and convert_source_to_sketch.py *)

Lemma pad64_eq (x : Z) : pad64 x = Qceiling (inject_Z x / 64) * 64 - x.
Proof.
  unfold pad64. set (n := Qceiling (inject_Z x / 64)).
  assert (E : (inject_Z n * 64 - inject_Z x == inject_Z (n * 64 - x))%Q).
  { unfold Z.sub. rewrite inject_Z_plus, inject_Z_mult, inject_Z_opp. reflexivity. }
  rewrite (int_Qeq _ _ E), int_inject_Z. reflexivity.
Qed.

Lemma pad64_spec (x : Z) :
  0 <= pad64 x < 64 /\ (x + pad64 x) mod 64 = 0.
Proof.
  rewrite pad64_eq. set (n := Qceiling (inject_Z x / 64)).
  pose proof (Qle_ceiling (inject_Z x / 64)) as Hle. fold n in Hle.
  pose proof (Qceiling_lt (inject_Z x / 64)) as Hlt. fold n in Hlt.
  assert (H1 : x <= n * 64).
  { apply (Qmult_le_compat_r _ _ 64) in Hle; [|discriminate].
    rewrite (Qmult_comm (inject_Z x / 64) 64), Qmult_div_r in Hle by discriminate.
    change 64%Q with (inject_Z 64) in Hle.
    rewrite <- inject_Z_mult, <- Zle_Qle in Hle. exact Hle. }
  assert (H2 : (n - 1) * 64 < x).
  { apply (Qmult_lt_compat_r _ _ 64) in Hlt; [|reflexivity].
    rewrite (Qmult_comm (inject_Z x / 64) 64), Qmult_div_r in Hlt by discriminate.
    change 64%Q with (inject_Z 64) in Hlt.
    rewrite <- inject_Z_mult, <- Zlt_Qlt in Hlt. exact Hlt. }
  split; [lia|].
  replace (x + (n * 64 - x)) with (n * 64) by lia. apply Z.mod_mul. lia.
Qed.


Lemma int_np_round_integer (x : Q) (n : Z) : (x == inject_Z n)%Q -> int (np_round x) = n.
Proof.
  intros E. unfold np_round.
  assert (Hf : Qfloor x = n) by (rewrite (Qfloor_comp _ _ E); apply Qfloor_Z).
  rewrite Hf.
  assert (Hg : Qgtb (1 # 2) (x - inject_Z n) = true).
  { apply Qgtb_true. rewrite E. unfold Qminus. rewrite Qplus_opp_r. reflexivity. }
  rewrite Hg. apply int_inject_Z.
Qed.

(** X2: at the threshold 16 of the entry point a pixel of the filter result
    is white exactly for [dog] in [0, 118] or [128, 246]: the uint8 product
    wraps, so the responses 119 to 127 stay black like the flat ones 247 to
    255. *)
Theorem xdog_white_band g1 g2 y x :
  let d := at_ (dog_of g1 g2) y x in
  xdog_threshold 16 d = (255, 255, 255) <-> (d <= 118 \/ 128 <= d <= 246).
Proof.
  intros d. pose proof (dog_of_range g1 g2 y x) as Hd. fold d in Hd.
  rewrite (xdog_threshold_spec _ _ Hd).
  destruct (Z_le_gt_dec 128 d) as [Hhi|Hlo].
  - rewrite (Z.mod_small (2 * (255 - d))) by lia.
    destruct (16 <? 2 * (255 - d)) eqn:E.
    + apply Z.ltb_lt in E. split; [intros _; lia|reflexivity].
    + apply Z.ltb_ge in E. split; [discriminate|lia].
  - replace ((2 * (255 - d)) mod 256) with (2 * (255 - d) - 256).
    2:{ apply (Z.mod_unique _ _ 1); lia. }
    destruct (16 <? 2 * (255 - d) - 256) eqn:E.
    + apply Z.ltb_lt in E. split; [intros _; lia|reflexivity].
    + apply Z.ltb_ge in E. split; [discriminate|lia].
Qed.

Section SketchGeometry.
Variable resample : Image -> Z -> Z -> Z -> Z -> color.
Variable cv2_resize_grid : ndarray color -> Z -> Z -> interpolation -> Z -> Z -> color.
Variable gaussian_kernel : Q -> list Q.

Lemma resize_image_with_pad_shape a res :
  1 <= res -> 0 < rows a -> 0 < cols a ->
  exists padded H_target W_target,
    resize_image_with_pad cv2_resize_grid a res = Ok (padded, (H_target, W_target)) /\
    padded = np_pad_edge
               (mkArray H_target W_target
                  (cv2_resize_grid a W_target H_target
                     (if Z.min (rows a) (cols a) <? res then INTER_CUBIC else INTER_AREA)))
               (pad64 H_target) (pad64 W_target) /\
    Z.min H_target W_target = res /\
    (rows a <= cols a -> H_target = res) /\ (cols a <= rows a -> W_target = res) /\
    H_target <= rows padded < H_target + 64 /\ rows padded mod 64 = 0 /\
    W_target <= cols padded < W_target + 64 /\ cols padded mod 64 = 0.
Proof.
  intros Hres Hr Hc.
  assert (Hk : forall n m : Z, 0 < m -> m <= n ->
               (inject_Z res <= inject_Z n * (inject_Z res / inject_Z m))%Q).
  { intros n m Hm Hn. unfold Qdiv. rewrite Qmult_assoc.
    apply Qle_shift_div_l; [rewrite <- (Zlt_Qlt 0); exact Hm|].
    rewrite <- !inject_Z_mult, <- Zle_Qle. nia. }
  assert (Hke : forall m : Z, 0 < m ->
               (inject_Z m * (inject_Z res / inject_Z m) == inject_Z res)%Q).
  { intros m Hm. apply Qmult_div_r. intros E.
    assert (Hq : (0 < inject_Z m)%Q) by (rewrite <- (Zlt_Qlt 0); exact Hm). lra. }
  unfold resize_image_with_pad, HWC3, truediv.
  set (m := Z.min (rows a) (cols a)).
  assert (Hm : 0 < m) by (subst m; lia).
  assert (Hmq : (0 < inject_Z m)%Q) by (rewrite <- (Zlt_Qlt 0); exact Hm).
  destruct (Qeq_bool (inject_Z m) 0) eqn:E; [apply Qeq_bool_iff in E; lra|]. clear E.
  set (k := (inject_Z res / inject_Z m)%Q).
  pose proof (int_np_round_lower res _ (Hk (rows a) m Hm ltac:(subst m; lia))) as HH.
  pose proof (int_np_round_lower res _ (Hk (cols a) m Hm ltac:(subst m; lia))) as HW.
  fold k in HH, HW.
  assert (HHe : rows a <= cols a -> int (np_round (inject_Z (rows a) * k)) = res).
  { intros Hle. apply int_np_round_integer. subst k.
    replace m with (rows a) by (subst m; lia). apply Hke. exact Hr. }
  assert (HWe : cols a <= rows a -> int (np_round (inject_Z (cols a) * k)) = res).
  { intros Hle. apply int_np_round_integer. subst k.
    replace m with (cols a) by (subst m; lia). apply Hke. exact Hc. }
  set (Ht := int (np_round (inject_Z (rows a) * k))) in *.
  set (Wt := int (np_round (inject_Z (cols a) * k))) in *.
  unfold cv2_resize.
  destruct ((Wt <? 1) || (Ht <? 1)) eqn:E.
  { apply orb_true_iff in E. destruct E as [E|E]; apply Z.ltb_lt in E; lia. }
  destruct (pad64_spec Ht) as [HpH HmH].
  destruct (pad64_spec Wt) as [HpW HmW].
  assert (Hi : (if Qgtb k 1 then INTER_CUBIC else INTER_AREA)
               = (if m <? res then INTER_CUBIC else INTER_AREA)).
  { destruct (m <? res) eqn:Em.
    - apply Z.ltb_lt in Em. rewrite (proj2 (Qgtb_true k 1)); [reflexivity|].
      subst k. apply Qlt_shift_div_l; [exact Hmq|].
      rewrite Qmult_1_l, <- Zlt_Qlt. exact Em.
    - apply Z.ltb_ge in Em. rewrite (proj2 (Qgtb_false k 1)); [reflexivity|].
      subst k. apply Qle_shift_div_r; [exact Hmq|].
      rewrite Qmult_1_l, <- Zle_Qle. exact Em. }
  rewrite Hi.
  eexists. exists Ht, Wt. split; [reflexivity|]. split; [reflexivity|].
  unfold np_pad_edge. cbn [rows cols].
  split; [destruct (Z_le_gt_dec (rows a) (cols a)); lia|].
  split; [exact HHe|]. split; [exact HWe|].
  split; [lia|]. split; [exact HmH|]. split; [lia|exact HmW].
Qed.

(** X3: on a non-empty array and a resolution of at least 1,
    [resize_image_with_pad] succeeds; the shorter side of the resized image
    is the resolution, the interpolation is cubic exactly when the
    resolution exceeds the shorter input side, and each padded dimension is
    the next multiple of 64, less than 64 above the resized one. *)
Theorem resize_image_with_pad_geometry a res :
  1 <= res -> 0 < rows a -> 0 < cols a ->
  exists padded H_target W_target,
    resize_image_with_pad cv2_resize_grid a res = Ok (padded, (H_target, W_target)) /\
    padded = np_pad_edge
               (mkArray H_target W_target
                  (cv2_resize_grid a W_target H_target
                     (if Z.min (rows a) (cols a) <? res then INTER_CUBIC else INTER_AREA)))
               (pad64 H_target) (pad64 W_target) /\
    Z.min H_target W_target = res /\
    (rows a <= cols a -> H_target = res) /\ (cols a <= rows a -> W_target = res) /\
    H_target <= rows padded < H_target + 64 /\ rows padded mod 64 = 0 /\
    W_target <= cols padded < W_target + 64 /\ cols padded mod 64 = 0.
Proof. exact (resize_image_with_pad_shape a res). Qed.

(** X4: [remove_pad] gives back the resized dimensions, and every entry
    of the padded array, padding included, is the entry of the unpadded
    part at the index clamped to its last row and column (edge
    replication on the bottom and the right). *)
Theorem remove_pad_restores_resized a res padded H_target W_target :
  resize_image_with_pad cv2_resize_grid a res = Ok (padded, (H_target, W_target)) ->
  rows (remove_pad H_target W_target padded) = H_target /\
  cols (remove_pad H_target W_target padded) = W_target /\
  forall y x, 0 <= y < rows padded -> 0 <= x < cols padded ->
    at_ padded y x
    = at_ (remove_pad H_target W_target padded)
        (Z.min y (H_target - 1)) (Z.min x (W_target - 1)).
Proof.
  unfold resize_image_with_pad, HWC3, truediv.
  set (m := Z.min (rows a) (cols a)).
  destruct (Qeq_bool (inject_Z m) 0) eqn:E0; [discriminate|].
  set (k := (inject_Z res / inject_Z m)%Q).
  set (Ht := int (np_round (inject_Z (rows a) * k))).
  set (Wt := int (np_round (inject_Z (cols a) * k))).
  unfold cv2_resize.
  destruct ((Wt <? 1) || (Ht <? 1)) eqn:E; [discriminate|].
  apply orb_false_iff in E. destruct E as [EW EH]. apply Z.ltb_ge in EW, EH.
  intros H. inversion H; subst. clear H.
  destruct (pad64_spec Ht) as [HpH _].
  destruct (pad64_spec Wt) as [HpW _].
  unfold remove_pad, np_pad_edge. cbn [rows cols at_].
  split; [lia|]. split; [lia|].
  intros y x Hy Hx.
  rewrite (Z.min_l (Z.min y (Ht - 1)) (Ht - 1)) by lia.
  rewrite (Z.min_l (Z.min x (Wt - 1)) (Wt - 1)) by lia. reflexivity.
Qed.

End SketchGeometry.

Lemma alpha_over_white_range v a : 0 <= alpha_over_white v a <= 255.
Proof.
  unfold alpha_over_white.
  destruct (clip_range (inject_Z v * (inject_Z a / 255) + 255 * (1 - inject_Z a / 255)))
    as [H0 H1].
  pose proof (int_mono _ _ H0 H1) as [Ha Hb].
  change (int 255) with 255 in Hb. lia.
Qed.

Lemma alpha_over_white_opaque v : 0 <= v <= 255 -> alpha_over_white v 255 = v.
Proof.
  intros Hv. unfold alpha_over_white.
  assert (E : (clip 0 255 (inject_Z v * (inject_Z 255 / 255) + 255 * (1 - inject_Z 255 / 255))
               == inject_Z v)%Q).
  { assert (Ev : (inject_Z v * (inject_Z 255 / 255) + 255 * (1 - inject_Z 255 / 255)
                  == inject_Z v)%Q).
    { change (inject_Z 255 / 255)%Q with (255 / 255)%Q.
      setoid_replace (255 / 255)%Q with 1%Q by reflexivity. ring. }
    assert (H0 : (0 <= inject_Z v)%Q) by (rewrite <- (Zle_Qle 0); lia).
    assert (H1 : (inject_Z v <= 255)%Q) by (change 255%Q with (inject_Z 255); rewrite <- Zle_Qle; lia).
    unfold clip. rewrite Q.max_l by (rewrite Ev; exact H0).
    rewrite Q.min_l by (rewrite Ev; exact H1). exact Ev. }
  rewrite (int_Qeq _ _ E). apply int_inject_Z.
Qed.

Lemma alpha_over_white_transparent v : alpha_over_white v 0 = 255.
Proof.
  unfold alpha_over_white.
  assert (E : (clip 0 255 (inject_Z v * (inject_Z 0 / 255) + 255 * (1 - inject_Z 0 / 255))
               == 255)%Q).
  { assert (Ev : (inject_Z v * (inject_Z 0 / 255) + 255 * (1 - inject_Z 0 / 255) == 255)%Q).
    { change (inject_Z 0 / 255)%Q with (0 / 255)%Q.
      setoid_replace (0 / 255)%Q with 0%Q by reflexivity. ring. }
    unfold clip. rewrite Q.max_l by (rewrite Ev; discriminate).
    rewrite Q.min_l by (rewrite Ev; apply Qle_refl). exact Ev. }
  rewrite (int_Qeq _ _ E). reflexivity.
Qed.


(** X6: on a 4-channel array [HWC3] composites over white: every output
    channel lies in [0, 255], a pixel of alpha 0 becomes white and a pixel
    of alpha 255 keeps its colour. *)
Theorem HWC3_any_alpha (x : raw_array) :
  raw_uint8 x = true -> raw_channels x = Some 4 ->
  exists out,
    HWC3_any x = Passed out /\
    forall i j,
      let '(r, g, b) := at_ out i j in
      (0 <= r <= 255 /\ 0 <= g <= 255 /\ 0 <= b <= 255) /\
      (raw_at x i j 3 = 0 -> at_ out i j = (255, 255, 255)) /\
      (raw_at x i j 3 = 255 ->
       0 <= raw_at x i j 0 <= 255 -> 0 <= raw_at x i j 1 <= 255 ->
       0 <= raw_at x i j 2 <= 255 ->
       at_ out i j = (raw_at x i j 0, raw_at x i j 1, raw_at x i j 2)).
Proof.
  intros Hu Hc. unfold HWC3_any. rewrite Hu, Hc. simpl.
  eexists. split; [reflexivity|]. intros i j. cbn [at_].
  split; [|split].
  - repeat split; apply alpha_over_white_range.
  - intros ->. rewrite !alpha_over_white_transparent. reflexivity.
  - intros -> H0 H1 H2. rewrite !alpha_over_white_opaque by assumption. reflexivity.
Qed.

Section SketchOutput.
Variable resample : Image -> Z -> Z -> Z -> Z -> color.
Variable cv2_resize_grid : ndarray color -> Z -> Z -> interpolation -> Z -> Z -> color.
Variable gaussian_kernel : Q -> list Q.

(** X7: on a non-empty array [scribble_xdog] returns an image whose
    shorter side is the working resolution and whose every pixel is white
    or black, whatever the threshold. *)
Theorem scribble_xdog_two_tone img res thr_a :
  1 <= res -> 0 < rows img -> 0 < cols img ->
  exists R,
    scribble_xdog cv2_resize_grid gaussian_kernel img res thr_a = Ok R /\
    Z.min (width R) (height R) = res /\
    (rows img <= cols img -> height R = res) /\
    (cols img <= rows img -> width R = res) /\
    forall x y, pixels R x y = (255, 255, 255) \/ pixels R x y = (0, 0, 0).
Proof.
  intros Hres Hr Hc.
  destruct (resize_image_with_pad_shape cv2_resize_grid img res Hres Hr Hc)
    as (padded & Ht & Wt & Hpad & _ & Hmin & HH & HW & HrP & _ & HcP & _).
  unfold scribble_xdog. rewrite Hpad.
  eexists. split; [reflexivity|].
  unfold Image_fromarray, remove_pad. cbn [width height pixels rows cols at_].
  rewrite (Z.min_l Wt) by lia. rewrite (Z.min_l Ht) by lia.
  split; [lia|]. split; [exact HH|]. split; [exact HW|].
  intros x y. unfold xdog_threshold.
  match goal with |- context [if ?b then _ else _] => destruct b end; auto.
Qed.

(** X8: on a non-empty image [convert_pil_to_sketch] returns an image of
    the size of its input. *)
Theorem convert_pil_to_sketch_keeps_size image :
  positive_size image ->
  exists out,
    convert_pil_to_sketch resample cv2_resize_grid gaussian_kernel image = Ok out /\
    size out = size image.
Proof.
  intros Hp.
  destruct (convert_pil_to_sketch_total resample cv2_resize_grid gaussian_kernel image Hp)
    as [out Hout].
  exists out. split; [exact Hout|].
  unfold convert_pil_to_sketch, size in Hout.
  destruct (scribble_xdog cv2_resize_grid gaussian_kernel (np_array image) 2048 16)
    as [R|e]; [|discriminate].
  destruct (Image_resize resample R (width image, height image)) as [P|e] eqn:EP;
    [|discriminate].
  apply Image_resize_size in EP. simpl in EP. destruct EP as [Ew Eh].
  inversion Hout; subst. unfold size. simpl. congruence.
Qed.

(** X9: an image of width 0 or height 0 makes [convert_pil_to_sketch]
    raise [ZeroDivisionError] (the resolution divided by the shorter side). *)
Theorem convert_pil_to_sketch_empty_raises image :
  0 <= width image -> 0 <= height image -> width image = 0 \/ height image = 0 ->
  convert_pil_to_sketch resample cv2_resize_grid gaussian_kernel image
  = Raise ZeroDivisionError.
Proof.
  intros Hw Hh Hz.
  unfold convert_pil_to_sketch, size, scribble_xdog, resize_image_with_pad, HWC3, truediv.
  cbn [np_array rows cols].
  replace (Z.min (height image) (width image)) with 0 by lia.
  reflexivity.
Qed.

End SketchOutput.

(** ** dataset_aug.py *)

Lemma in_range z n : In z (range n) <-> 0 <= z < n.
Proof.
  unfold range. rewrite in_map_iff. split.
  - intros (k & <- & Hk). apply in_seq in Hk. lia.
  - intros Hz. exists (Z.to_nat z). split; [lia|]. apply in_seq. lia.
Qed.

Lemma in_getdata img p :
  In p (getdata img) <->
  exists x y, 0 <= x < width img /\ 0 <= y < height img /\ p = pixels img x y.
Proof.
  unfold getdata. rewrite in_flat_map. split.
  - intros (y & Hy & Hp). apply in_map_iff in Hp. destruct Hp as (x & <- & Hx).
    apply in_range in Hx, Hy. eauto.
  - intros (x & y & Hx & Hy & ->). exists y. split; [apply in_range; exact Hy|].
    apply in_map_iff. exists x. split; [reflexivity|apply in_range; exact Hx].
Qed.

Lemma channel_sum_bounds (ch : color -> Z) (lo hi : Z) (l : list color) :
  (forall p, In p l -> lo <= ch p <= hi) ->
  Z.of_nat (List.length l) * lo <= channel_sum ch l <= Z.of_nat (List.length l) * hi.
Proof.
  induction l as [|p l IH]; intros H.
  - unfold channel_sum. simpl. lia.
  - assert (Hp : lo <= ch p <= hi) by (apply H; left; reflexivity).
    assert (Hl : forall q, In q l -> lo <= ch q <= hi) by (intros q Hq; apply H; right; exact Hq).
    specialize (IH Hl). unfold channel_sum in *. cbn [map fold_right List.length].
    rewrite Nat2Z.inj_succ. lia.
Qed.

Lemma quot_between (s n lo hi : Z) :
  0 < n -> n * lo <= s <= n * hi -> lo <= Z.quot s n <= hi.
Proof.
  intros Hn [H1 H2]. split.
  - rewrite <- (Z.quot_mul lo n) by lia. apply Z.quot_le_mono; lia.
  - rewrite <- (Z.quot_mul hi n) by lia. apply Z.quot_le_mono; lia.
Qed.

(** X10: when every channel of every pixel lies in [lo, hi], every channel
    of the average colour of a non-empty image does. *)
Theorem get_average_color_between img lo hi :
  positive_size img ->
  (forall x y, 0 <= x < width img -> 0 <= y < height img ->
     lo <= red (pixels img x y) <= hi /\ lo <= green (pixels img x y) <= hi /\
     lo <= blue (pixels img x y) <= hi) ->
  exists c,
    get_average_color img = Ok c /\
    lo <= red c <= hi /\ lo <= green c <= hi /\ lo <= blue c <= hi.
Proof.
  intros [Hw Hh] Hpix.
  destruct (get_average_color_total img Hw Hh) as [c Hc].
  exists c. split; [exact Hc|].
  apply get_average_color_spec in Hc. destruct Hc as [Hn ->].
  assert (Hin : forall p, In p (getdata img) ->
            lo <= red p <= hi /\ lo <= green p <= hi /\ lo <= blue p <= hi).
  { intros p Hp. apply in_getdata in Hp. destruct Hp as (x & y & Hx & Hy & ->).
    apply Hpix; assumption. }
  cbn [red green blue fst snd].
  split; [|split]; (apply quot_between; [exact Hn|]);
    apply channel_sum_bounds; intros p Hp; apply Hin, Hp.
Qed.

(** X11: the average colour of a solid image is its colour. *)
Theorem get_average_color_solid img c :
  solid_image img c -> get_average_color img = Ok c.
Proof.
  intros (Hw & Hh & Hpix).
  destruct (get_average_color_total img Hw Hh) as [c' Hc].
  rewrite Hc. f_equal.
  apply get_average_color_spec in Hc. destruct Hc as [Hn ->].
  assert (Hin : forall p, In p (getdata img) -> p = c).
  { intros p Hp. apply in_getdata in Hp. destruct Hp as (x & y & Hx & Hy & ->).
    apply Hpix; assumption. }
  assert (Hq : forall ch : color -> Z,
            Z.quot (channel_sum ch (getdata img)) (Z.of_nat (List.length (getdata img))) = ch c).
  { intros ch.
    assert (Hb := channel_sum_bounds ch (ch c) (ch c) (getdata img)
                    (fun p Hp => ltac:(rewrite (Hin p Hp); lia))).
    pose proof (quot_between _ _ (ch c) (ch c) Hn Hb). lia. }
  rewrite !Hq. destruct c as [[r g] b]. reflexivity.
Qed.

Lemma most_frequent_unique c c0 l :
  (forall p, In p l -> p = c0) -> most_frequent c l -> c = c0.
Proof. intros H [Hin _]. apply H, Hin. Qed.

(** X12: when the border band of the given width, which fits inside the
    image, is of one colour, that colour is the edge-mode colour, whatever
    the interior. *)
Theorem get_edge_mode_color_frame img edge_width c :
  1 <= edge_width -> edge_width <= width img -> edge_width <= height img ->
  (forall x y, 0 <= x < width img -> 0 <= y < height img ->
     x < edge_width \/ width img - edge_width <= x \/
     y < edge_width \/ height img - edge_width <= y ->
     pixels img x y = c) ->
  get_edge_mode_color img edge_width = Ok c.
Proof.
  intros He Hw Hh Hframe.
  assert (Hall : forall p, In p (edge_colors img edge_width) -> p = c).
  { intros p Hp. unfold edge_colors in Hp.
    repeat (apply in_app_or in Hp; destruct Hp as [Hp|Hp]);
      apply in_getdata in Hp; destruct Hp as (x & y & Hx & Hy & ->);
      cbn [crop width height pixels] in *; unfold inside;
      rewrite Z.max_r in Hx, Hy by lia.
    - replace ((0 <=? x + 0) && (x + 0 <? width img) && (0 <=? y + 0) && (y + 0 <? height img))
        with true by (symmetry; rewrite !andb_true_iff, !Z.leb_le, !Z.ltb_lt; lia).
      apply Hframe; lia.
    - replace ((0 <=? x + (width img - edge_width)) && (x + (width img - edge_width) <? width img)
               && (0 <=? y + 0) && (y + 0 <? height img))
        with true by (symmetry; rewrite !andb_true_iff, !Z.leb_le, !Z.ltb_lt; lia).
      apply Hframe; lia.
    - replace ((0 <=? x + 0) && (x + 0 <? width img) && (0 <=? y + 0) && (y + 0 <? height img))
        with true by (symmetry; rewrite !andb_true_iff, !Z.leb_le, !Z.ltb_lt; lia).
      apply Hframe; lia.
    - replace ((0 <=? x + 0) && (x + 0 <? width img)
               && (0 <=? y + (height img - edge_width)) && (y + (height img - edge_width) <? height img))
        with true by (symmetry; rewrite !andb_true_iff, !Z.leb_le, !Z.ltb_lt; lia).
      apply Hframe; lia. }
  assert (Hne : edge_colors img edge_width <> []).
  { unfold edge_colors. intros E. apply app_eq_nil in E. destruct E as [E _].
    revert E. apply getdata_nonempty; simpl; lia. }
  unfold get_edge_mode_color.
  pose proof (get_edge_mode_color_spec img edge_width) as Hspec.
  unfold get_edge_mode_color in Hspec.
  apply Counter_nonempty in Hne.
  destruct (Counter (edge_colors img edge_width)) as [|x0 rest]; [congruence|].
  simpl in *. destruct (fold_left _ rest x0) as [mc mn].
  f_equal. apply (most_frequent_unique mc c _ Hall). apply Hspec. reflexivity.
Qed.

(** X13: [apply_random_flip] keeps the size, applied twice with the same
    decision it gives the image back, and with decision [True] it reads
    column [width - 1 - x]. *)
Theorem apply_random_flip_involution img h :
  same_image (apply_random_flip (apply_random_flip img h) h) img /\
  size (apply_random_flip img h) = size img /\
  (h = true -> forall x y, pixels (apply_random_flip img h) x y
                           = pixels img (width img - 1 - x) y).
Proof.
  destruct h; simpl.
  - split; [|split; [reflexivity|reflexivity]].
    unfold same_image, mirror. cbn [width height pixels].
    split; [reflexivity|]. split; [reflexivity|].
    intros x y _ _. f_equal. lia.
  - split; [|split; [reflexivity|discriminate]].
    unfold same_image. auto.
Qed.

(** X14: the long-side block yields a square canvas of the longer side
    that holds the whole image, at the centring offset, and the fill colour
    everywhere else; a square image comes out unchanged. *)
Theorem long_side_canvas_centres_image base fill :
  0 <= width base -> 0 <= height base ->
  let canvas := long_side_canvas base fill in
  let side := Z.max (width base) (height base) in
  let px := (side - width base) / 2 in
  let py := (side - height base) / 2 in
  width canvas = side /\ height canvas = side /\
  0 <= px /\ px + width base <= side /\ 0 <= py /\ py + height base <= side /\
  (forall x y, 0 <= x < width base -> 0 <= y < height base ->
     pixels canvas (x + px) (y + py) = pixels base x y) /\
  (forall x y, ~ (px <= x < px + width base /\ py <= y < py + height base) ->
     pixels canvas x y = fill) /\
  (width base = height base -> same_image canvas base).
Proof.
  intros Hw Hh canvas side px py.
  assert (Hpx : 0 <= px /\ px + width base <= side).
  { subst px side. pose proof (Z.div_pos (Z.max (width base) (height base) - width base) 2).
    pose proof (Z.mul_div_le (Z.max (width base) (height base) - width base) 2). lia. }
  assert (Hpy : 0 <= py /\ py + height base <= side).
  { subst py side. pose proof (Z.div_pos (Z.max (width base) (height base) - height base) 2).
    pose proof (Z.mul_div_le (Z.max (width base) (height base) - height base) 2). lia. }
  subst canvas. unfold long_side_canvas. fold side. fold px. fold py.
  cbn [paste Image_new width height pixels fst snd].
  split; [reflexivity|]. split; [reflexivity|].
  split; [apply Hpx|]. split; [apply Hpx|]. split; [apply Hpy|]. split; [apply Hpy|].
  split; [|split].
  - intros x y Hx Hy. unfold inside.
    replace (x + px - px) with x by lia. replace (y + py - py) with y by lia.
    replace ((0 <=? x) && (x <? width base) && (0 <=? y) && (y <? height base))
      with true by (symmetry; rewrite !andb_true_iff, !Z.leb_le, !Z.ltb_lt; lia).
    reflexivity.
  - intros x y Hout. unfold inside.
    destruct ((0 <=? x - px) && (x - px <? width base) && (0 <=? y - py) && (y - py <? height base)) eqn:E;
      [|reflexivity].
    rewrite !andb_true_iff, !Z.leb_le, !Z.ltb_lt in E. exfalso. apply Hout. lia.
  - intros Hsq. unfold same_image. cbn [width height pixels].
    assert (Hs : side = width base) by (subst side; lia).
    assert (Hpx0 : px = 0) by (subst px; rewrite Hs, Z.sub_diag; reflexivity).
    assert (Hpy0 : py = 0) by (subst py; rewrite Hs, Hsq, Z.sub_diag; reflexivity).
    split; [exact Hs|]. split; [lia|].
    intros x y Hx Hy. unfold inside. rewrite Hpx0, Hpy0, !Z.sub_0_r.
    replace ((0 <=? x) && (x <? width base) && (0 <=? y) && (y <? height base))
      with true by (symmetry; rewrite !andb_true_iff, !Z.leb_le, !Z.ltb_lt; lia).
    reflexivity.
Qed.

Lemma int_half (n : Z) : int (inject_Z n / 2) = Z.quot n 2.
Proof. change 2%Q with (inject_Z 2). apply int_div_pos. lia. Qed.

(** X15: for a canvas scale of at least 1 the grown canvas is at least as
    large as the image, holds the whole image at the centring offset and
    the fill colour everywhere else. *)
Theorem grown_canvas_centres_image base cs fill :
  0 <= width base -> 0 <= height base -> (1 <= cs)%Q ->
  let canvas := grown_canvas base cs fill in
  let ox := Z.quot (width canvas - width base) 2 in
  let oy := Z.quot (height canvas - height base) 2 in
  width canvas = int (inject_Z (width base) * cs) /\
  height canvas = int (inject_Z (height base) * cs) /\
  0 <= ox /\ ox + width base <= width canvas /\
  0 <= oy /\ oy + height base <= height canvas /\
  (forall x y, 0 <= x < width base -> 0 <= y < height base ->
     pixels canvas (x + ox) (y + oy) = pixels base x y) /\
  (forall x y, ~ (ox <= x < ox + width base /\ oy <= y < oy + height base) ->
     pixels canvas x y = fill).
Proof.
  intros Hw Hh Hcs canvas ox oy.
  assert (Hgrow : forall n, 0 <= n -> n <= int (inject_Z n * cs)).
  { intros n Hn.
    assert (H0 : (0 <= inject_Z n)%Q) by (rewrite <- (Zle_Qle 0); exact Hn).
    assert (H1 : (inject_Z n <= inject_Z n * cs)%Q).
    { rewrite <- (Qmult_1_r (inject_Z n)) at 1.
      rewrite (Qmult_comm _ 1), (Qmult_comm _ cs). apply Qmult_le_compat_r; assumption. }
    pose proof (int_mono _ _ H0 H1) as [_ Hm]. rewrite int_inject_Z in Hm. exact Hm. }
  pose proof (Hgrow _ Hw) as HW. pose proof (Hgrow _ Hh) as HH.
  subst canvas ox oy. unfold grown_canvas.
  cbn [paste Image_new width height pixels fst snd]. rewrite !int_half.
  set (W := int (inject_Z (width base) * cs)) in *.
  set (H := int (inject_Z (height base) * cs)) in *.
  set (ox := Z.quot (W - width base) 2). set (oy := Z.quot (H - height base) 2).
  assert (Hox : 0 <= ox /\ ox + width base <= W).
  { subst ox. pose proof (Z.quot_pos (W - width base) 2).
    pose proof (Z.mul_quot_le (W - width base) 2). lia. }
  assert (Hoy : 0 <= oy /\ oy + height base <= H).
  { subst oy. pose proof (Z.quot_pos (H - height base) 2).
    pose proof (Z.mul_quot_le (H - height base) 2). lia. }
  split; [reflexivity|]. split; [reflexivity|].
  split; [apply Hox|]. split; [apply Hox|]. split; [apply Hoy|]. split; [apply Hoy|].
  split.
  - intros x y Hx Hy. unfold inside.
    replace (x + ox - ox) with x by lia. replace (y + oy - oy) with y by lia.
    replace ((0 <=? x) && (x <? width base) && (0 <=? y) && (y <? height base))
      with true by (symmetry; rewrite !andb_true_iff, !Z.leb_le, !Z.ltb_lt; lia).
    reflexivity.
  - intros x y Hout. unfold inside.
    destruct ((0 <=? x - ox) && (x - ox <? width base) && (0 <=? y - oy) && (y - oy <? height base)) eqn:E;
      [|reflexivity].
    rewrite !andb_true_iff, !Z.leb_le, !Z.ltb_lt in E. exfalso. apply Hout. lia.
Qed.

Section PairGeometry.
Variable rotate_affine : Image -> Q -> color -> Image.
Variable resample : Image -> Z -> Z -> Z -> Z -> color.

(** Without rotation the size of the base images is decided by the size of
    the inputs: scaled by [k] when the target is [k] times the source. *)
Lemma base_sizes_without_rotation src tgt cfg g L g' k :
  process_image_pair_locals rotate_affine src tgt cfg g = Ok (L, g') ->
  Qgtb (rotation_range cfg) 0 = false ->
  0 <= k -> width tgt = k * width src -> height tgt = k * height src ->
  width (base_target L) = k * width (base_source L) /\
  height (base_target L) = k * height (base_source L).
Proof.
  intros HL Hrot Hk Hw Hh. apply locals_inv in HL.
  destruct HL as [_ _ Fes Fet Frot Fflip _ _ _ _ _ _ _ _ _ _ _ _ _ _].
  rewrite Hrot in Frot. destruct Frot as (_ & Frs & Frt).
  assert (He : width (expanded_target L) = k * width (expanded_source L) /\
               height (expanded_target L) = k * height (expanded_source L)).
  { rewrite Fes, Fet. destruct (expand_to_long_side cfg).
    - unfold long_side_canvas. cbn [paste Image_new width height fst snd].
      rewrite Hw, Hh. nia.
    - auto. }
  destruct (is_flip cfg).
  - destruct Fflip as (h & _ & -> & ->). rewrite Frs, Frt.
    destruct h; cbn [apply_random_flip mirror width height]; exact He.
  - destruct Fflip as (_ & -> & ->). rewrite Frs, Frt. exact He.
Qed.

(** X16: without rotation a target of the size of the source is cropped
    with the very window of the source: same offsets, same crop size, same
    canvas size, so the target window lies inside its canvas. *)
Theorem same_size_pair_shares_window src tgt cfg g L g' :
  process_image_pair_locals rotate_affine src tgt cfg g = Ok (L, g') ->
  (rotation_range cfg <= 0)%Q ->
  size tgt = size src ->
  left_target L = left_source L /\ top_target L = top_source L /\
  crop_target_size L = crop_source_size L /\
  size (scaled_target L) = size (scaled_source L) /\
  0 <= left_target L <= width (scaled_target L) - crop_target_size L /\
  0 <= top_target L <= height (scaled_target L) - crop_target_size L.
Proof.
  intros HL Hrot Hsz. unfold size in Hsz. injection Hsz as Hw Hh.
  apply Qgtb_false in Hrot.
  destruct (base_sizes_without_rotation src tgt cfg g L g' 1 HL Hrot ltac:(lia)
              ltac:(lia) ltac:(lia)) as [Hbw Hbh].
  rewrite Z.mul_1_l in Hbw, Hbh.
  apply locals_inv in HL.
  destruct HL as [_ _ _ _ _ _ _ _ _ Fss Fst Fcss Fcts Fls Fts Fw Fh Flt Ftt _].
  assert (Hl : left_target L = left_source L).
  { rewrite Flt, Hw. apply Z.div_mul. exact Fw. }
  assert (Ht : top_target L = top_source L).
  { rewrite Ftt, Hh. apply Z.div_mul. exact Fh. }
  assert (Hc : crop_target_size L = crop_source_size L).
  { rewrite Fcss, Fcts, Hbw, Hbh. reflexivity. }
  assert (Hs : size (scaled_target L) = size (scaled_source L)).
  { rewrite Fss, Fst. unfold size. destruct (Qgtb (canvas_scale L) 1).
    - unfold grown_canvas. cbn [paste Image_new width height fst snd].
      rewrite Hbw, Hbh. reflexivity.
    - rewrite Hbw, Hbh. reflexivity. }
  unfold size in Hs. injection Hs as Hsw Hsh.
  split; [exact Hl|]. split; [exact Ht|]. split; [exact Hc|].
  split; [unfold size; congruence|].
  rewrite Hl, Ht, Hc, Hsw, Hsh. split; assumption.
Qed.

(** X17: without rotation and at scale 1, a target [k] times the size of
    the source is cropped at [k] times the source window, and that window
    lies inside the target canvas. *)
Theorem scaled_target_window_at_scale_one src tgt cfg g L g' k :
  process_image_pair_locals rotate_affine src tgt cfg g = Ok (L, g') ->
  (rotation_range cfg <= 0)%Q -> (min_scale cfg == 1)%Q -> (max_scale cfg == 1)%Q ->
  positive_size src -> 0 <= k ->
  width tgt = k * width src -> height tgt = k * height src ->
  left_target L = k * left_source L /\ top_target L = k * top_source L /\
  crop_target_size L = k * crop_source_size L /\
  0 <= left_target L /\
  left_target L + crop_target_size L <= width (scaled_target L) /\
  0 <= top_target L /\
  top_target L + crop_target_size L <= height (scaled_target L).
Proof.
  intros HL Hrot Hmin Hmax [Hsw Hsh] Hk Hw Hh.
  apply Qgtb_false in Hrot.
  destruct (base_sizes_without_rotation src tgt cfg g L g' k HL Hrot Hk Hw Hh) as [Hbw Hbh].
  apply locals_inv in HL.
  destruct HL as [_ _ _ _ _ _ Fsc _ Fcs Fss Fst Fcss Fcts Fls Fts Fw Fh Flt Ftt _].
  destruct Fsc as (u & _ & _ & Esc).
  assert (Hsc1 : (scale L == 1)%Q) by (rewrite Esc, Hmin, Hmax; ring).
  assert (Hcs1 : (canvas_scale L == 1)%Q) by (rewrite Fcs, Hsc1; reflexivity).
  assert (Eg : Qgtb (canvas_scale L) 1 = false) by (apply Qgtb_false; lra).
  rewrite Eg in Fss, Fst.
  assert (Hint : forall m, int (inject_Z m * canvas_scale L) = m).
  { intros m. rewrite <- (int_inject_Z m) at 2. apply int_Qeq. rewrite Hcs1. ring. }
  rewrite Hint in Fcss, Fcts.
  assert (Hl : left_target L = k * left_source L).
  { rewrite Flt, Hw.
    replace (left_source L * (k * width src)) with (k * left_source L * width src) by ring.
    apply Z.div_mul. exact Fw. }
  assert (Ht : top_target L = k * top_source L).
  { rewrite Ftt, Hh.
    replace (top_source L * (k * height src)) with (k * top_source L * height src) by ring.
    apply Z.div_mul. exact Fh. }
  assert (Hc : crop_target_size L = k * crop_source_size L).
  { rewrite Fcss, Fcts, Hbw, Hbh. nia. }
  rewrite Fss in Fls, Fts.
  split; [exact Hl|]. split; [exact Ht|]. split; [exact Hc|].
  rewrite Hl, Ht, Hc, Fst, Hbw, Hbh. nia.
Qed.

(** X18: with [min_scale = max_scale = 0] the call raises on every input
    and generator state and returns no pair. *)
Theorem zero_scale_raises src tgt cfg g :
  (min_scale cfg == 0)%Q -> (max_scale cfg == 0)%Q ->
  exists e,
    process_image_pair_locals rotate_affine src tgt cfg g = Raise e /\
    process_image_pair rotate_affine resample src tgt cfg g = Raise e.
Proof.
  intros Hmin Hmax.
  destruct (process_image_pair_locals rotate_affine src tgt cfg g) as [[L g']|e] eqn:E.
  - apply locals_inv in E.
    destruct E as [_ _ _ _ _ _ Fsc Fnz _ _ _ _ _ _ _ _ _ _ _ _].
    destruct Fsc as (u & _ & _ & Esc). exfalso. apply Fnz.
    rewrite Esc, Hmin, Hmax. ring.
  - exists e. split; [reflexivity|].
    unfold process_image_pair, bind. rewrite E. reflexivity.
Qed.

Lemma process_image_pair_rng src tgt cfg g fs ft g' :
  process_image_pair rotate_affine resample src tgt cfg g = Ok ((fs, ft), g') ->
  g' = skipn (words_drawn cfg) g.
Proof.
  intros H. apply process_image_pair_inv in H. destruct H as (L & HL & _ & _).
  apply locals_inv in HL.
  destruct HL as [_ _ _ _ _ _ _ _ _ _ _ _ _ _ _ _ _ _ _ Frng]. exact Frng.
Qed.

Lemma process_images_loop_spec src tgt cfg n :
  forall acc_s acc_t g As Bs g',
  process_images_loop rotate_affine resample src tgt cfg n acc_s acc_t g = Ok ((As, Bs), g') ->
  exists new_s new_t,
    As = acc_s ++ new_s /\ Bs = acc_t ++ new_t /\
    List.length new_s = n /\ List.length new_t = n /\
    g' = skipn (n * words_drawn cfg) g /\
    forall i d, (i < n)%nat ->
      process_image_pair rotate_affine resample src tgt cfg (skipn (i * words_drawn cfg) g)
      = Ok ((nth i new_s d, nth i new_t d), skipn (S i * words_drawn cfg) g).
Proof.
  induction n as [|n IH]; intros acc_s acc_t g As Bs g' H.
  - simpl in H. apply ret_ok in H. destruct H as [H ->]. inversion H; subst.
    exists [], []. rewrite !app_nil_r. repeat split; auto. intros i d Hi. lia.
  - simpl in H. apply bind_ok in H. destruct H as ([a b] & g1 & Hp & H).
    pose proof (process_image_pair_rng _ _ _ _ _ _ _ Hp) as Hg1. subst g1.
    apply IH in H. destruct H as (ns & nt & -> & -> & Hls & Hlt & -> & Hnth).
    exists (a :: ns), (b :: nt).
    rewrite <- !app_assoc. simpl.
    split; [reflexivity|]. split; [reflexivity|].
    split; [lia|]. split; [lia|].
    split; [rewrite skipn_skipn; f_equal; lia|].
    intros i d Hi. destruct i as [|i].
    + simpl. rewrite Nat.add_0_r. exact Hp.
    + specialize (Hnth i d ltac:(lia)). rewrite !skipn_skipn in Hnth.
      cbn [nth].
      assert (E1 : (S i * words_drawn cfg = i * words_drawn cfg + words_drawn cfg)%nat) by lia.
      rewrite <- E1 in Hnth.
      replace (words_drawn cfg + S i * words_drawn cfg)%nat
        with (S i * words_drawn cfg + words_drawn cfg)%nat by lia.
      exact Hnth.
Qed.

(** X19: a batch that returns holds [num_copies] pairs, leaves the
    generator advanced by [num_copies] draws, and its [i]-th pair is what
    [process_image_pair] returns on the generator advanced by [i] draws. *)
Theorem process_images_runs_draws_in_sequence src tgt num_copies cfg g As Bs g' :
  process_images rotate_affine resample src tgt num_copies cfg g = Ok ((As, Bs), g') ->
  List.length As = Z.to_nat num_copies /\ List.length Bs = Z.to_nat num_copies /\
  g' = skipn (Z.to_nat num_copies * words_drawn cfg) g /\
  forall i d, (i < Z.to_nat num_copies)%nat ->
    process_image_pair rotate_affine resample src tgt cfg (skipn (i * words_drawn cfg) g)
    = Ok ((nth i As d, nth i Bs d), skipn (S i * words_drawn cfg) g).
Proof.
  unfold process_images. intros H.
  apply process_images_loop_spec in H.
  destruct H as (ns & nt & -> & -> & Hls & Hlt & Hg & Hnth).
  simpl. auto.
Qed.



End PairGeometry.








Section InsideCanvas.
Variable rotate_affine : Image -> Q -> color -> Image.

Hypothesis rotate_affine_positive :
  forall img a c, positive_size img -> positive_size (rotate_affine img a c).

(** X22: on non-empty images with [0 < min_scale <= max_scale], the
    expanding rotation keeping non-empty images non-empty, the source crop
    is a square of the crop size whose every pixel is read inside the
    scaled source canvas, never from the black area outside it. *)
Theorem source_crop_reads_inside_canvas src tgt cfg g :
  positive_size src -> positive_size tgt ->
  (0 < min_scale cfg)%Q -> (min_scale cfg <= max_scale cfg)%Q ->
  exists L g',
    process_image_pair_locals rotate_affine src tgt cfg g = Ok (L, g') /\
    let cropped := crop_square (scaled_source L) (left_source L) (top_source L)
                     (crop_source_size L) in
    width cropped = crop_source_size L /\ height cropped = crop_source_size L /\
    forall x y, 0 <= x < crop_source_size L -> 0 <= y < crop_source_size L ->
      inside (scaled_source L) (x + left_source L) (y + top_source L) = true /\
      pixels cropped x y = pixels (scaled_source L) (x + left_source L) (y + top_source L).
Proof.
  intros Hsrc Htgt Hmin Hmax.
  destruct (locals_total rotate_affine rotate_affine_positive src tgt cfg g Hsrc Htgt Hmin Hmax)
    as (L & HL & Hbs & Hcs).
  exists L, (skipn (words_drawn cfg) g). split; [exact HL|].
  apply locals_inv in HL.
  destruct HL as [_ _ _ _ _ _ _ _ _ Fss _ Fcss _ Fls Fts _ _ _ _ _].
  pose proof (crop_size_fits (base_source L) (canvas_scale L) (source_fill_color L)
                (proj1 Hbs) (proj2 Hbs) Hcs) as Hfit.
  cbv zeta in Hfit. rewrite <- Fss, <- Fcss in Hfit.
  destruct Hfit as (H0 & Hw & Hh).
  unfold crop_square. cbn [crop width height pixels].
  split; [lia|]. split; [lia|].
  intros x y Hx Hy.
  assert (Hin : inside (scaled_source L) (x + left_source L) (y + top_source L) = true).
  { unfold inside. rewrite !andb_true_iff, !Z.leb_le, !Z.ltb_lt. lia. }
  rewrite Hin. split; reflexivity.
Qed.

End InsideCanvas.

(** ** test_app.py *)

Lemma np_round_upper (x : Q) (n : Z) : (x <= inject_Z n)%Q -> int (np_round x) <= n.
Proof.
  intros H. unfold np_round.
  pose proof (Qfloor_le x) as Hfl. pose proof (Qlt_floor x) as Hlt.
  assert (Hf : Qfloor x <= n).
  { apply Qfloor_resp_le in H. rewrite Qfloor_Z in H. exact H. }
  assert (Hup : (1 # 2 <= x - inject_Z (Qfloor x))%Q -> Qfloor x + 1 <= n).
  { intros Hr.
    assert (Hx : (inject_Z (Qfloor x) < inject_Z n)%Q) by lra.
    rewrite <- Zlt_Qlt in Hx. lia. }
  destruct (Qgtb (1 # 2) (x - inject_Z (Qfloor x))) eqn:E1; [rewrite int_inject_Z; exact Hf|].
  apply Qgtb_false in E1.
  destruct (Qgtb (x - inject_Z (Qfloor x)) (1 # 2)) eqn:E2;
    [rewrite int_inject_Z; apply Hup; exact E1|].
  destruct (Z.even (Qfloor x)); rewrite int_inject_Z; [exact Hf|apply Hup; exact E1].
Qed.

Lemma py_round1_between (x : Q) (lo hi : Z) :
  (inject_Z lo <= x * 10)%Q -> (x * 10 <= inject_Z hi)%Q ->
  (inject_Z lo / 10 <= py_round1 x)%Q /\ (py_round1 x <= inject_Z hi / 10)%Q.
Proof.
  intros Hlo Hhi. unfold py_round1.
  destruct (np_round_int (x * 10)) as (z & Ez & _).
  pose proof (int_np_round_lower lo _ Hlo) as H1.
  pose proof (np_round_upper _ hi Hhi) as H2.
  rewrite Ez in *. rewrite int_inject_Z in H1, H2.
  split; apply Qmult_le_compat_r; try discriminate; rewrite <- Zle_Qle; assumption.
Qed.

Lemma uniform_between a b g q g' :
  (a <= b)%Q -> uniform a b g = Ok (q, g') -> (a <= q)%Q /\ (q <= b)%Q.
Proof.
  intros Hab H. apply uniform_ok in H. destruct H as (_ & u & H0 & H1 & ->).
  assert (Hm : (0 <= (b - a) * u)%Q) by (apply Qmult_le_0_compat; lra).
  assert (Hm' : ((b - a) * u <= (b - a) * 1)%Q).
  { rewrite (Qmult_comm (b - a) u), (Qmult_comm (b - a) 1).
    apply Qmult_le_compat_r; lra. }
  split; lra.
Qed.

Lemma choice_ok {A} (d : A) (l : list A) g x g' :
  choice (d :: l) g = Ok (x, g') -> In x (d :: l) /\ g' = skipn 1 g.
Proof.
  unfold choice, _randbelow. intros H.
  apply bind_ok in H. destruct H as (i & g1 & Hi & H).
  apply ret_ok in H. destruct H as [-> ->].
  apply bind_ok in Hi. destruct Hi as (w & g2 & Hw & Hi).
  apply ret_ok in Hi. destruct Hi as [-> ->].
  split; [|eapply next_word_ok; eassumption].
  apply nth_In.
  pose proof (Z.mod_pos_bound (Z.of_N w) (Z.of_nat (List.length (d :: l)))
                ltac:(simpl List.length; lia)).
  lia.
Qed.

Lemma choice_total {A} (d : A) (l : list A) g :
  exists x, choice (d :: l) g = Ok (x, skipn 1 g).
Proof.
  destruct (next_word_total g) as [w Hw].
  unfold choice, _randbelow, bind, ret. rewrite Hw. eauto.
Qed.

Lemma randomize_params_spec g :
  exists p,
    randomize_params g = Ok (p, skipn 11 g) /\
    In (p_output_size p) [512; 768; 1024; 1536; 2048] /\
    1 <= p_num_copies p <= 5 /\
    0 <= p_rotation_range p <= 180 /\
    (1 # 10 <= p_min_scale p)%Q /\ (p_min_scale p <= 1)%Q /\
    (1 <= p_max_scale p)%Q /\ (p_max_scale p <= 2)%Q.
Proof.
  unfold randomize_params.
  destruct (choice_total 512 [768; 1024; 1536; 2048] g) as [o Ho].
  rewrite (bind_eq _ _ _ _ _ Ho). apply choice_ok in Ho. destruct Ho as [Ho _].
  destruct (randint_total 1 5 (skipn 1 g) ltac:(lia)) as [n Hn].
  rewrite (bind_eq _ _ _ _ _ Hn). apply randint_ok in Hn. destruct Hn as [_ Hn].
  destruct (choice_total true [false] (skipn 1 (skipn 1 g))) as [f Hf].
  rewrite (bind_eq _ _ _ _ _ Hf). clear Hf.
  destruct (randint_total 0 180 (skipn 1 (skipn 1 (skipn 1 g))) ltac:(lia)) as [r Hr].
  rewrite (bind_eq _ _ _ _ _ Hr). apply randint_ok in Hr. destruct Hr as [_ Hr].
  set (g4 := skipn 1 (skipn 1 (skipn 1 (skipn 1 g)))).
  destruct (uniform_total (1 # 10) 1 g4) as [u1 Hu1].
  assert (Hmin : (u <- uniform (1 # 10) 1 ;; ret (py_round1 u)) g4
                 = Ok (py_round1 u1, skipn 1 g4))
    by (rewrite (bind_eq _ _ _ _ _ Hu1); reflexivity).
  rewrite (bind_eq _ _ _ _ _ Hmin). clear Hmin.
  apply uniform_between in Hu1; [|discriminate].
  destruct (uniform_total 1 2 (skipn 1 g4)) as [u2 Hu2].
  assert (Hmax : (u <- uniform 1 2 ;; ret (py_round1 u)) (skipn 1 g4)
                 = Ok (py_round1 u2, skipn 1 (skipn 1 g4)))
    by (rewrite (bind_eq _ _ _ _ _ Hu2); reflexivity).
  rewrite (bind_eq _ _ _ _ _ Hmax). clear Hmax.
  apply uniform_between in Hu2; [|discriminate].
  set (g6 := skipn 1 (skipn 1 g4)).
  destruct (choice_total true [false] g6) as [b1 Hb1].
  rewrite (bind_eq _ _ _ _ _ Hb1). clear Hb1.
  destruct (choice_total true [false] (skipn 1 g6)) as [b2 Hb2].
  rewrite (bind_eq _ _ _ _ _ Hb2). clear Hb2.
  destruct (choice_total true [false] (skipn 1 (skipn 1 g6))) as [b3 Hb3].
  rewrite (bind_eq _ _ _ _ _ Hb3). clear Hb3.
  destruct (choice_total true [false] (skipn 1 (skipn 1 (skipn 1 g6)))) as [b4 Hb4].
  rewrite (bind_eq _ _ _ _ _ Hb4). clear Hb4.
  destruct (choice_total true [false] (skipn 1 (skipn 1 (skipn 1 (skipn 1 g6))))) as [b5 Hb5].
  rewrite (bind_eq _ _ _ _ _ Hb5). clear Hb5.
  eexists. split.
  { unfold ret. f_equal. f_equal. subst g6 g4. rewrite !skipn_skipn. reflexivity. }
  cbn [p_output_size p_num_copies p_rotation_range p_min_scale p_max_scale].
  split; [exact Ho|]. split; [exact Hn|]. split; [exact Hr|].
  destruct Hu1 as [Hu1a Hu1b]. destruct Hu2 as [Hu2a Hu2b].
  destruct (py_round1_between u1 1 10) as [Ha Hb];
    [unfold inject_Z; lra|unfold inject_Z; lra|].
  destruct (py_round1_between u2 10 20) as [Hc Hd];
    [unfold inject_Z; lra|unfold inject_Z; lra|].
  split; [|split; [|split]].
  - apply (Qle_trans _ (inject_Z 1 / 10)); [discriminate|exact Ha].
  - apply (Qle_trans _ (inject_Z 10 / 10)); [exact Hb|discriminate].
  - apply (Qle_trans _ (inject_Z 10 / 10)); [discriminate|exact Hc].
  - apply (Qle_trans _ (inject_Z 20 / 10)); [exact Hd|discriminate].
Qed.

(** X23: [randomize_params] returns on every generator state, reads eleven
    words, and its tuple has an output size from the list, 1 to 5 copies,
    a rotation range in [0, 180], [0.1 <= min_scale <= 1] and
    [1 <= max_scale <= 2]. *)
Theorem randomize_params_in_range g :
  exists p,
    randomize_params g = Ok (p, skipn 11 g) /\
    In (p_output_size p) [512; 768; 1024; 1536; 2048] /\
    1 <= p_num_copies p <= 5 /\
    0 <= p_rotation_range p <= 180 /\
    (1 # 10 <= p_min_scale p)%Q /\ (p_min_scale p <= 1)%Q /\
    (1 <= p_max_scale p)%Q /\ (p_max_scale p <= 2)%Q.
Proof. exact (randomize_params_spec g). Qed.

Section AppFacts.

Variable rotate_affine : Image -> Q -> color -> Image.
Variable resample : Image -> Z -> Z -> Z -> Z -> color.
Variable Image_open : string -> result Image.

Lemma process_images_sizes src tgt n cfg s g As Bs g' :
  output_size cfg = (s, s) ->
  process_images rotate_affine resample src tgt n cfg g = Ok ((As, Bs), g') ->
  Forall (fun img => width img = s /\ height img = s) As /\
  Forall (fun img => width img = s /\ height img = s) Bs /\
  List.length As = Z.to_nat n /\ List.length Bs = Z.to_nat n.
Proof.
  intros Hs H. unfold process_images in H.
  apply (process_images_loop_sizes _ _ _ _ _ _ _ Hs) in H; auto.
  destruct H as (HA & HB & HlA & HlB). simpl in HlA. repeat split; auto. congruence.
Qed.

Lemma process_multiple_images_loop_spec p : forall pairs rs rt g As Bs g',
  process_multiple_images_loop rotate_affine resample Image_open pairs p rs rt g
    = Ok ((As, Bs), g') ->
  exists new_s new_t,
    As = rs ++ new_s /\ Bs = rt ++ new_t /\
    List.length new_s = (List.length pairs * Z.to_nat (p_num_copies p))%nat /\
    List.length new_t = (List.length pairs * Z.to_nat (p_num_copies p))%nat /\
    Forall (fun img => width img = p_output_size p /\ height img = p_output_size p) new_s /\
    Forall (fun img => width img = p_output_size p /\ height img = p_output_size p) new_t /\
    Forall (fun sp => exists img, Image_open (fst sp) = Ok img) pairs /\
    Forall (fun sp => exists img, Image_open (snd sp) = Ok img) pairs.
Proof.
  induction pairs as [|[sp tp] rest IH]; intros rs rt g As Bs g' H.
  - simpl in H. apply ret_ok in H. destruct H as [H _]. inversion H; subst.
    exists [], []. rewrite !app_nil_r. repeat split; constructor.
  - simpl in H.
    apply bind_ok in H. destruct H as (simg & g1 & Hs & H).
    apply lift_ok in Hs. destruct Hs as [Hs ->].
    apply bind_ok in H. destruct H as (timg & g2 & Ht & H).
    apply lift_ok in Ht. destruct Ht as [Ht ->].
    apply bind_ok in H. destruct H as ([augs augt] & g3 & Hp & H).
    apply (process_images_sizes _ _ _ _ (p_output_size p)) in Hp; [|reflexivity].
    destruct Hp as (Fa & Fb & La & Lb).
    apply IH in H. destruct H as (ns & nt & -> & -> & Ls & Lt & Fs & Ft & Os & Ot).
    exists (augs ++ ns), (augt ++ nt). rewrite <- !app_assoc.
    split; [reflexivity|]. split; [reflexivity|].
    split; [rewrite length_app; simpl; lia|]. split; [rewrite length_app; simpl; lia|].
    split; [apply Forall_app; split; assumption|].
    split; [apply Forall_app; split; assumption|].
    split; constructor; simpl; eauto.
Qed.

(** X24: [process_multiple_images] pairs the files as [zip] does: when it
    returns, both lists hold [num_copies] images for each of the
    [min(len(sources), len(targets))] pairs, files beyond the shorter list
    are ignored, and every image has the output size. *)
Theorem process_multiple_images_counts source_images target_images p g As Bs g' :
  process_multiple_images rotate_affine resample Image_open source_images target_images p g
    = Ok ((As, Bs), g') ->
  let pairs := Nat.min (List.length source_images) (List.length target_images) in
  List.length As = (pairs * Z.to_nat (p_num_copies p))%nat /\
  List.length Bs = (pairs * Z.to_nat (p_num_copies p))%nat /\
  Forall (fun img => width img = p_output_size p /\ height img = p_output_size p) As /\
  Forall (fun img => width img = p_output_size p /\ height img = p_output_size p) Bs.
Proof.
  unfold process_multiple_images. intros H.
  apply process_multiple_images_loop_spec in H.
  destruct H as (ns & nt & -> & -> & Ls & Lt & Fs & Ft & _ & _).
  rewrite length_combine in Ls, Lt. simpl. auto.
Qed.

End AppFacts.

Section ValidRuns.
Variable rotate_affine : Image -> Q -> color -> Image.
Variable resample : Image -> Z -> Z -> Z -> Z -> color.

Lemma Image_resize_total img w h :
  1 <= w -> 1 <= h -> exists out, Image_resize resample img (w, h) = Ok out.
Proof.
  intros Hw Hh. unfold Image_resize.
  destruct ((w =? width img) && (h =? height img)); [eauto|].
  destruct ((w <? 1) || (h <? 1)) eqn:E; [|eauto].
  apply orb_true_iff in E. destruct E as [E|E]; apply Z.ltb_lt in E; lia.
Qed.

Hypothesis rotate_affine_positive :
  forall img a c, positive_size img -> positive_size (rotate_affine img a c).

Lemma process_image_pair_total src tgt cfg g :
  positive_size src -> positive_size tgt ->
  (0 < min_scale cfg)%Q -> (min_scale cfg <= max_scale cfg)%Q ->
  1 <= fst (output_size cfg) -> 1 <= snd (output_size cfg) ->
  exists fs ft,
    process_image_pair rotate_affine resample src tgt cfg g
      = Ok ((fs, ft), skipn (words_drawn cfg) g) /\
    size fs = output_size cfg /\ size ft = output_size cfg.
Proof.
  intros Hsrc Htgt Hmin Hmax Hw Hh.
  destruct (locals_total rotate_affine rotate_affine_positive src tgt cfg g Hsrc Htgt Hmin Hmax)
    as (L & HL & _ & _).
  destruct (output_size cfg) as [w h] eqn:Eo. simpl in Hw, Hh.
  destruct (Image_resize_total
              (crop_square (scaled_source L) (left_source L) (top_source L)
                 (crop_source_size L)) w h Hw Hh) as [fs Hfs].
  destruct (Image_resize_total
              (crop_square (scaled_target L) (left_target L) (top_target L)
                 (crop_target_size L)) w h Hw Hh) as [ft Hft].
  exists fs, ft. split.
  - unfold process_image_pair. rewrite (bind_eq _ _ _ _ _ HL). rewrite Eo.
    rewrite (bind_lift_eq _ _ _ _ Hfs), (bind_lift_eq _ _ _ _ Hft). reflexivity.
  - apply Image_resize_size in Hfs, Hft. simpl in Hfs, Hft. unfold size.
    destruct Hfs as [-> ->]. destruct Hft as [-> ->]. split; reflexivity.
Qed.

(** X25: on non-empty images with [0 < min_scale <= max_scale] and a
    positive output size, the expanding rotation keeping non-empty images
    non-empty, [process_image_pair] returns a pair on every generator
    state, both images of the output size. *)
Theorem process_image_pair_returns src tgt cfg g :
  positive_size src -> positive_size tgt ->
  (0 < min_scale cfg)%Q -> (min_scale cfg <= max_scale cfg)%Q ->
  1 <= fst (output_size cfg) -> 1 <= snd (output_size cfg) ->
  exists fs ft,
    process_image_pair rotate_affine resample src tgt cfg g
      = Ok ((fs, ft), skipn (words_drawn cfg) g) /\
    size fs = output_size cfg /\ size ft = output_size cfg.
Proof. exact (process_image_pair_total src tgt cfg g). Qed.

Lemma process_images_loop_total src tgt cfg :
  positive_size src -> positive_size tgt ->
  (0 < min_scale cfg)%Q -> (min_scale cfg <= max_scale cfg)%Q ->
  1 <= fst (output_size cfg) -> 1 <= snd (output_size cfg) ->
  forall n acc_s acc_t g,
  exists As Bs,
    process_images_loop rotate_affine resample src tgt cfg n acc_s acc_t g
    = Ok ((As, Bs), skipn (n * words_drawn cfg) g).
Proof.
  intros Hsrc Htgt Hmin Hmax Hw Hh. induction n as [|n IH]; intros acc_s acc_t g.
  - simpl. unfold ret. eauto.
  - destruct (process_image_pair_total src tgt cfg g Hsrc Htgt Hmin Hmax Hw Hh)
      as (fs & ft & Hp & _).
    simpl process_images_loop. rewrite (bind_eq _ _ _ _ _ Hp).
    destruct (IH (acc_s ++ [fs]) (acc_t ++ [ft]) (skipn (words_drawn cfg) g)) as (As & Bs & H).
    exists As, Bs. rewrite H, skipn_skipn. do 3 f_equal. lia.
Qed.

Lemma process_images_total src tgt num_copies cfg g :
  positive_size src -> positive_size tgt ->
  (0 < min_scale cfg)%Q -> (min_scale cfg <= max_scale cfg)%Q ->
  1 <= fst (output_size cfg) -> 1 <= snd (output_size cfg) ->
  exists As Bs,
    process_images rotate_affine resample src tgt num_copies cfg g
      = Ok ((As, Bs), skipn (Z.to_nat num_copies * words_drawn cfg) g) /\
    List.length As = Z.to_nat num_copies /\ List.length Bs = Z.to_nat num_copies.
Proof.
  intros Hsrc Htgt Hmin Hmax Hw Hh. unfold process_images.
  destruct (process_images_loop_total src tgt cfg Hsrc Htgt Hmin Hmax Hw Hh
              (Z.to_nat num_copies) [] [] g) as (As & Bs & H).
  exists As, Bs. split; [exact H|].
  apply process_images_loop_spec in H.
  destruct H as (ns & nt & -> & -> & Ls & Lt & _ & _). simpl. auto.
Qed.

(** X26: on non-empty images with [0 < min_scale <= max_scale] and a
    positive output size, the expanding rotation keeping non-empty images
    non-empty, [process_images] returns [num_copies] pairs on
    every generator state and leaves the generator advanced by
    [num_copies] draws. *)
Theorem process_images_returns src tgt num_copies cfg g :
  positive_size src -> positive_size tgt ->
  (0 < min_scale cfg)%Q -> (min_scale cfg <= max_scale cfg)%Q ->
  1 <= fst (output_size cfg) -> 1 <= snd (output_size cfg) ->
  exists As Bs,
    process_images rotate_affine resample src tgt num_copies cfg g
      = Ok ((As, Bs), skipn (Z.to_nat num_copies * words_drawn cfg) g) /\
    List.length As = Z.to_nat num_copies /\ List.length Bs = Z.to_nat num_copies.
Proof. exact (process_images_total src tgt num_copies cfg g). Qed.

(** X27: every parameter tuple of [randomize_params] makes [process_images]
    return on any non-empty pair, with between 1 and 5 pairs (the
    expanding rotation keeping non-empty images non-empty). *)
Theorem randomized_params_always_run src tgt g g2 :
  positive_size src -> positive_size tgt ->
  exists p As Bs,
    randomize_params g = Ok (p, skipn 11 g) /\
    process_images rotate_affine resample src tgt (p_num_copies p) (params_config p) g2
      = Ok ((As, Bs), skipn (Z.to_nat (p_num_copies p) * words_drawn (params_config p)) g2) /\
    (1 <= List.length As <= 5)%nat /\ List.length Bs = List.length As.
Proof.
  intros Hsrc Htgt.
  destruct (randomize_params_spec g)
    as (p & Hp & Ho & Hn & _ & Hmin & Hmin1 & Hmax1 & _).
  assert (Ho1 : 1 <= p_output_size p).
  { simpl in Ho. destruct Ho as [<-|[<-|[<-|[<-|[<-|[]]]]]]; lia. }
  destruct (process_images_total src tgt (p_num_copies p) (params_config p) g2 Hsrc Htgt)
    as (As & Bs & HP & La & Lb).
  - simpl. lra.
  - simpl. lra.
  - exact Ho1.
  - exact Ho1.
  - exists p, As, Bs. split; [exact Hp|]. split; [exact HP|]. lia.
Qed.

End ValidRuns.

(** ** Worked examples of the further properties *)

Lemma resize_image_with_pad_geometry_witness :
  exists padded H_target W_target,
    resize_image_with_pad nearest_cv2 (np_array teal3x2) 100 = Ok (padded, (H_target, W_target)) /\
    Z.min H_target W_target = 100 /\ rows padded mod 64 = 0 /\ cols padded mod 64 = 0.
Proof.
  destruct (resize_image_with_pad_geometry nearest_cv2 (np_array teal3x2) 100)
    as (padded & Ht & Wt & Hpad & _ & Hmin & _ & _ & _ & Hr & _ & Hc).
  - lia.
  - simpl. lia.
  - simpl. lia.
  - exists padded, Ht, Wt. auto.
Defined.

Lemma remove_pad_restores_resized_witness :
  exists padded H_target W_target,
    resize_image_with_pad nearest_cv2 (np_array teal3x2) 100 = Ok (padded, (H_target, W_target)) /\
    rows (remove_pad H_target W_target padded) = H_target /\
    cols (remove_pad H_target W_target padded) = W_target.
Proof.
  destruct (resize_image_with_pad nearest_cv2 (np_array teal3x2) 100)
    as [[padded [Ht Wt]]|e] eqn:E; [|vm_compute in E; discriminate].
  destruct (remove_pad_restores_resized nearest_cv2 (np_array teal3x2) 100 padded Ht Wt E)
    as (Hr & Hc & _).
  exists padded, Ht, Wt. auto.
Defined.

Lemma scribble_xdog_two_tone_witness :
  exists R,
    scribble_xdog nearest_cv2 tent_kernel (np_array teal3x2) 100 16 = Ok R /\
    Z.min (width R) (height R) = 100.
Proof.
  destruct (scribble_xdog_two_tone nearest_cv2 tent_kernel (np_array teal3x2) 100 16)
    as (R & HR & Hmin & _).
  - lia.
  - simpl. lia.
  - simpl. lia.
  - exists R. auto.
Defined.

Lemma convert_pil_to_sketch_keeps_size_witness :
  exists out,
    convert_pil_to_sketch nearest_resample nearest_cv2 tent_kernel teal3x2 = Ok out /\
    size out = (3, 2).
Proof.
  apply (convert_pil_to_sketch_keeps_size nearest_resample nearest_cv2 tent_kernel teal3x2).
  unfold positive_size. simpl. lia.
Defined.

Lemma convert_pil_to_sketch_empty_raises_witness :
  convert_pil_to_sketch nearest_resample nearest_cv2 tent_kernel empty_image
  = Raise ZeroDivisionError.
Proof.
  apply convert_pil_to_sketch_empty_raises; simpl; lia.
Defined.

Lemma HWC3_any_alpha_witness :
  exists out,
    HWC3_any rgba_1x2 = Passed out /\
    at_ out 0 0 = (255, 255, 255) /\ at_ out 0 1 = (10, 20, 30).
Proof.
  destruct (HWC3_any_alpha rgba_1x2 eq_refl eq_refl) as (out & Hout & Hpix).
  exists out. split; [exact Hout|]. split.
  - pose proof (Hpix 0 0) as H. destruct (at_ out 0 0) as [[r g] b].
    destruct H as (_ & H & _). apply H. reflexivity.
  - pose proof (Hpix 0 1) as H. destruct (at_ out 0 1) as [[r g] b].
    destruct H as (_ & _ & H). apply H; simpl; try reflexivity; lia.
Defined.

Lemma get_average_color_between_witness :
  exists c, get_average_color wide4x2 = Ok c /\
            0 <= red c <= 3 /\ 0 <= green c <= 3 /\ 0 <= blue c <= 3.
Proof.
  apply (get_average_color_between wide4x2 0 3).
  - unfold positive_size. simpl. lia.
  - intros x y Hx Hy. unfold red, green, blue, wide4x2 in *. simpl in *. lia.
Defined.

Lemma get_average_color_solid_witness : get_average_color teal3x2 = Ok (10, 20, 30).
Proof. apply get_average_color_solid. exact teal3x2_solid. Defined.

Lemma get_edge_mode_color_frame_witness : get_edge_mode_color framed6 2 = Ok (0, 0, 0).
Proof.
  apply get_edge_mode_color_frame; simpl; try lia.
  intros x y Hx Hy Hb.
  destruct ((2 <=? x) && (x <? 4) && (2 <=? y) && (y <? 4)) eqn:E; [|reflexivity].
  rewrite !andb_true_iff, !Z.leb_le, !Z.ltb_lt in E. lia.
Defined.


Lemma long_side_canvas_centres_image_witness :
  width (long_side_canvas wide4x2 (7, 7, 7)) = 4 /\
  height (long_side_canvas wide4x2 (7, 7, 7)) = 4 /\
  (forall x y, 0 <= x < 4 -> 0 <= y < 2 ->
     pixels (long_side_canvas wide4x2 (7, 7, 7)) (x + 0) (y + 1) = pixels wide4x2 x y).
Proof.
  destruct (long_side_canvas_centres_image wide4x2 (7, 7, 7))
    as (Hw & Hh & _ & _ & _ & _ & Hpix & _).
  - simpl. lia.
  - simpl. lia.
  - split; [exact Hw|]. split; [exact Hh|]. exact Hpix.
Defined.

Lemma grown_canvas_centres_image_witness :
  width (grown_canvas wide4x2 2 (7, 7, 7)) = 8 /\
  height (grown_canvas wide4x2 2 (7, 7, 7)) = 4 /\
  (forall x y, 0 <= x < 4 -> 0 <= y < 2 ->
     pixels (grown_canvas wide4x2 2 (7, 7, 7)) (x + 2) (y + 1) = pixels wide4x2 x y).
Proof.
  destruct (grown_canvas_centres_image wide4x2 2 (7, 7, 7))
    as (Hw & Hh & _ & _ & _ & _ & Hpix & _).
  - simpl. lia.
  - simpl. lia.
  - discriminate.
  - split; [exact Hw|]. split; [exact Hh|]. exact Hpix.
Defined.

Lemma same_size_pair_shares_window_witness :
  exists L g',
    process_image_pair_locals blank_rotate wide4x2 wide4x2 (plain_config 2) [0; 2; 0]%N
      = Ok (L, g') /\
    left_target L = left_source L /\ top_target L = top_source L /\
    crop_target_size L = crop_source_size L.
Proof.
  destruct (process_image_pair_locals blank_rotate wide4x2 wide4x2 (plain_config 2)
              [0; 2; 0]%N) as [[L g']|e] eqn:E; [|vm_compute in E; discriminate].
  destruct (same_size_pair_shares_window blank_rotate wide4x2 wide4x2 (plain_config 2)
              [0; 2; 0]%N L g' E) as (Hl & Ht & Hc & _).
  - discriminate.
  - reflexivity.
  - exists L, g'. auto.
Defined.

Lemma scaled_target_window_at_scale_one_witness :
  exists L g',
    process_image_pair_locals blank_rotate wide4x2 wide8x4 (plain_config 2) [0; 2; 0]%N
      = Ok (L, g') /\
    left_target L = 2 * left_source L /\ top_target L = 2 * top_source L /\
    crop_target_size L = 2 * crop_source_size L /\
    left_target L + crop_target_size L <= width (scaled_target L).
Proof.
  destruct (process_image_pair_locals blank_rotate wide4x2 wide8x4 (plain_config 2)
              [0; 2; 0]%N) as [[L g']|e] eqn:E; [|vm_compute in E; discriminate].
  destruct (scaled_target_window_at_scale_one blank_rotate wide4x2 wide8x4 (plain_config 2)
              [0; 2; 0]%N L g' 2 E) as (Hl & Ht & Hc & _ & Hfit & _).
  - discriminate.
  - reflexivity.
  - reflexivity.
  - unfold positive_size. simpl. lia.
  - lia.
  - reflexivity.
  - reflexivity.
  - exists L, g'. auto.
Defined.

Lemma zero_scale_raises_witness :
  exists e,
    process_image_pair_locals blank_rotate wide4x2 wide8x4 zero_scale_config [] = Raise e /\
    process_image_pair blank_rotate nearest_resample wide4x2 wide8x4 zero_scale_config []
      = Raise e.
Proof.
  apply zero_scale_raises; reflexivity.
Defined.

Lemma source_crop_reads_inside_canvas_witness :
  exists L g',
    process_image_pair_locals blank_rotate wide4x2 wide8x4 flip_rotate_config
      zero_angle_tape = Ok (L, g') /\
    forall x y, 0 <= x < crop_source_size L -> 0 <= y < crop_source_size L ->
      inside (scaled_source L) (x + left_source L) (y + top_source L) = true.
Proof.
  destruct (source_crop_reads_inside_canvas blank_rotate blank_rotate_positive wide4x2 wide8x4
              flip_rotate_config zero_angle_tape) as (L & g' & HL & _ & _ & Hpix).
  - unfold positive_size. simpl. lia.
  - unfold positive_size. simpl. lia.
  - reflexivity.
  - discriminate.
  - exists L, g'. split; [exact HL|]. intros x y Hx Hy. apply (Hpix x y Hx Hy).
Defined.

Lemma process_images_runs_draws_in_sequence_witness :
  exists As Bs g',
    process_images blank_rotate nearest_resample wide4x2 wide8x4 2 (plain_config 2) []
      = Ok ((As, Bs), g') /\
    List.length As = 2%nat /\ List.length Bs = 2%nat.
Proof.
  destruct (process_images blank_rotate nearest_resample wide4x2 wide8x4 2 (plain_config 2) [])
    as [[[As Bs] g']|e] eqn:E; [|vm_compute in E; discriminate].
  destruct (process_images_runs_draws_in_sequence blank_rotate nearest_resample
              wide4x2 wide8x4 2 (plain_config 2) [] As Bs g' E) as (La & Lb & _).
  exists As, Bs, g'. auto.
Defined.


Lemma process_image_pair_returns_witness :
  exists fs ft,
    process_image_pair blank_rotate nearest_resample wide4x2 wide8x4 flip_rotate_config
      zero_angle_tape = Ok ((fs, ft), []) /\
    size fs = (2, 2) /\ size ft = (2, 2).
Proof.
  apply (process_image_pair_returns blank_rotate nearest_resample blank_rotate_positive
           wide4x2 wide8x4 flip_rotate_config zero_angle_tape).
  - unfold positive_size. simpl. lia.
  - unfold positive_size. simpl. lia.
  - reflexivity.
  - discriminate.
  - simpl. lia.
  - simpl. lia.
Defined.

Lemma process_images_returns_witness :
  exists As Bs,
    process_images blank_rotate nearest_resample wide4x2 wide8x4 3 flip_rotate_config []
      = Ok ((As, Bs), []) /\
    List.length As = 3%nat /\ List.length Bs = 3%nat.
Proof.
  apply (process_images_returns blank_rotate nearest_resample blank_rotate_positive
           wide4x2 wide8x4 3 flip_rotate_config []).
  - unfold positive_size. simpl. lia.
  - unfold positive_size. simpl. lia.
  - reflexivity.
  - discriminate.
  - simpl. lia.
  - simpl. lia.
Defined.

Lemma randomized_params_always_run_witness :
  exists p As Bs,
    randomize_params [] = Ok (p, []) /\
    process_images blank_rotate nearest_resample wide4x2 wide8x4 (p_num_copies p)
      (params_config p) []
      = Ok ((As, Bs), []) /\
    (1 <= List.length As <= 5)%nat.
Proof.
  destruct (randomized_params_always_run blank_rotate nearest_resample blank_rotate_positive
              wide4x2 wide8x4 [] []) as (p & As & Bs & Hp & HP & Hl & _).
  - unfold positive_size. simpl. lia.
  - unfold positive_size. simpl. lia.
  - exists p, As, Bs. split; [exact Hp|]. split; [|exact Hl].
    rewrite HP. rewrite skipn_nil. reflexivity.
Defined.

Lemma process_multiple_images_counts_witness :
  exists As Bs g',
    process_multiple_images blank_rotate nearest_resample open_wide4x2
      ["a.png"; "b.png"; "c.png"]%string ["a.png"; "b.png"]%string plain_params [] = Ok ((As, Bs), g') /\
    List.length As = 4%nat /\ List.length Bs = 4%nat.
Proof.
  destruct (process_multiple_images blank_rotate nearest_resample open_wide4x2
              ["a.png"; "b.png"; "c.png"]%string ["a.png"; "b.png"]%string plain_params [])
    as [[[As Bs] g']|e] eqn:E; [|vm_compute in E; discriminate].
  destruct (process_multiple_images_counts blank_rotate nearest_resample open_wide4x2
              ["a.png"; "b.png"; "c.png"]%string ["a.png"; "b.png"]%string plain_params [] As Bs g' E)
    as (La & Lb & _).
  exists As, Bs, g'. auto.
Defined.
